(** * Huffman codec: a shallow embedding of [Huffman.py] and its properties

    The development follows the Python module function by function.
    Python exceptions are values of an error monad, the in-place heap of
    [heapq] is a list threaded through the calls, the code table is a finite
    map, and the two namedtuples [Node] and [CompressNode] are two inductive
    types that share the field interface [decode] and [is_leaf] rely on.
    Texts are strings of 8-bit characters; integers are unbounded.  The
    functions of [heapq] follow the reference implementation [heapq.py],
    with which the C accelerator agrees on heaps of this size.  The
    recursive functions are modelled on a stack that does not run out,
    which is what they meet on trees up to [max_depth], the height the
    trees of [encode] cannot exceed; [list_to_tree_in] is [list_to_tree]
    with the interpreter's limit on the stack. *)

From Stdlib Require Import ZArith Ascii String Strings.Byte.
From stdpp Require Import gmap strings list.

Local Open Scope Z_scope.

(** ** Exceptions *)

(** The built-in exceptions the module can raise. *)
Inductive exn : Type :=
  | IndexError
  | TypeError
  | KeyError
  | ValueError
  | AttributeError
  | RecursionError.

(** Outcome of a call: a value, a raised exception, or the loop budget of
    the model used up (shown below never to happen for the budgets the
    top-level functions pass). *)
Inductive result (A : Type) : Type :=
  | Ok (a : A)
  | Raise (e : exn)
  | OutOfFuel.
Arguments Ok {A} a.
Arguments Raise {A} e.
Arguments OutOfFuel {A}.

Global Instance result_ret : MRet result := @Ok.
Global Instance result_bind : MBind result := λ A B (k : A → result B) r,
  match r with
  | Ok a => k a
  | Raise e => Raise e
  | OutOfFuel => OutOfFuel
  end.

(** [l[i]] on a list: [IndexError] out of range. *)
Definition getitem {A} (l : list A) (i : nat) : result A :=
  match l !! i with
  | Some x => Ok x
  | None => Raise IndexError
  end.

Module Huffman.

(** ** Data model *)

(** Python values as [json.load] returns them and as the [letter] field
    holds them: [None], booleans, integers, strings and lists.  Floats and
    JSON objects, which [json.load] can return too, are left out: no tree
    file written by this module contains one. *)
#[warnings="-register-all"] Inductive pyvalue : Type :=
  | PNone
  | PBool (b : bool)
  | PInt (n : Z)
  | PStr (s : string)
  | PList (l : list pyvalue).

(** Truth value of [x] in [... if x else ...]. *)
Definition truthy (x : pyvalue) : bool :=
  match x with
  | PNone => false
  | PBool b => b
  | PInt n => negb (n =? 0)
  | PStr s => negb (String.eqb s "")
  | PList l => match l with [] => false | _ => true end
  end.

(** The attributes [decode], [is_leaf] and [tree_for_compression] read from
    a node; both namedtuples provide them. *)
Class NodeLike (T : Type) : Type := {
  letter : T → pyvalue;
  left : T → option T;
  right : T → option T;
}.

(** [Node = namedtuple('Node', ['count', 'letter', 'left', 'right'])];
    [left] and [right] are [None] or a [Node], [letter] is a one-character
    string. *)
#[warnings="-register-all"] Inductive Node : Type :=
  mkNode (count : Z) (letter : ascii) (left right : option Node).

Definition count (n : Node) : Z := let 'mkNode c _ _ _ := n in c.
Definition Node_letter (n : Node) : ascii := let 'mkNode _ l _ _ := n in l.

Global Instance Node_like : NodeLike Node := {|
  letter n := PStr (String (Node_letter n) "");
  left n := let 'mkNode _ _ l _ := n in l;
  right n := let 'mkNode _ _ _ r := n in r;
|}.

(** [CompressNode = namedtuple('CompressNode', ['letter', 'left', 'right'])] *)
#[warnings="-register-all"] Inductive CompressNode : Type :=
  mkCompressNode (letter : pyvalue) (left right : option CompressNode).

Global Instance CompressNode_like : NodeLike CompressNode := {|
  letter n := let 'mkCompressNode l _ _ := n in l;
  left n := let 'mkCompressNode _ l _ := n in l;
  right n := let 'mkCompressNode _ _ r := n in r;
|}.

(** The character ['\0'] that [make_tree] stores in internal nodes. *)
Definition NUL : ascii := Ascii.zero.

(** *** Tuple comparison of nodes

    [heapq] orders nodes with [<] on the namedtuples, which is the
    lexicographic order of tuples: the first position where the two tuples
    are not [==] decides, by [<] on the items found there.  [==] between
    trees is structural and never raises, [<] between [None] and a [Node]
    raises [TypeError]. *)
Fixpoint node_eqb (a b : Node) : bool :=
  let opt_eqb (x : option Node) (y : option Node) : bool :=
    match x, y with
    | Some x', Some y' => node_eqb x' y'
    | None, None => true
    | _, _ => false
    end in
  match a, b with
  | mkNode ca la lefta righta, mkNode cb lb leftb rightb =>
      Z.eqb ca cb && Ascii.eqb la lb && opt_eqb lefta leftb && opt_eqb righta rightb
  end.

Definition opt_eqb (x y : option Node) : bool :=
  match x, y with
  | Some x', Some y' => node_eqb x' y'
  | None, None => true
  | _, _ => false
  end.

(** [la < lb] on one-character strings: by code point. *)
Definition letter_ltb (la lb : ascii) : bool :=
  (N_of_ascii la <? N_of_ascii lb)%N.

Fixpoint node_lt (a b : Node) : result bool :=
  let opt_lt (x : option Node) (y : option Node) : result bool :=
    match x, y with
    | Some x', Some y' => node_lt x' y'
    | _, _ => Raise TypeError
    end in
  match a, b with
  | mkNode ca la lefta righta, mkNode cb lb leftb rightb =>
      if negb (Z.eqb ca cb) then Ok (Z.ltb ca cb)
      else if negb (Ascii.eqb la lb) then Ok (letter_ltb la lb)
      else if negb (opt_eqb lefta leftb) then opt_lt lefta leftb
      else if negb (opt_eqb righta rightb) then opt_lt righta rightb
      else Ok false
  end.

(** ** [heapq] *)

(** [_siftdown(heap, startpos, pos)]: the loop carries [newitem] and the
    position of the hole it will fill. *)
Fixpoint siftdown_loop (fuel : nat) (heap : list Node) (newitem : Node)
    (startpos pos : nat) : result (list Node) :=
  if decide (startpos < pos)%nat then
    match fuel with
    | O => OutOfFuel
    | S fuel' =>
        let parentpos := Nat.shiftr (pos - 1) 1 in
        parent ← getitem heap parentpos;
        b ← node_lt newitem parent;
        if b : bool then
          siftdown_loop fuel' (<[pos := parent]> heap) newitem startpos parentpos
        else Ok (<[pos := newitem]> heap)
    end
  else Ok (<[pos := newitem]> heap).

Definition _siftdown (heap : list Node) (startpos pos : nat) : result (list Node) :=
  newitem ← getitem heap pos;
  siftdown_loop pos heap newitem startpos pos.

(** The index of the smaller child in [_siftup]: [childpos], or [rightpos]
    when it is in range and [not heap[childpos] < heap[rightpos]]. *)
Definition smaller_child (heap : list Node) (endpos childpos : nat) : result nat :=
  let rightpos := (childpos + 1)%nat in
  if decide (rightpos < endpos)%nat then
    c ← getitem heap childpos;
    r ← getitem heap rightpos;
    b ← node_lt c r;
    Ok (if negb b then rightpos else childpos)
  else Ok childpos.

(** [_siftup(heap, pos)]: the smaller child is moved up until a leaf is
    hit, then [newitem] is put there and sifted down again. *)
Fixpoint siftup_loop (fuel : nat) (heap : list Node) (endpos pos childpos : nat)
    : result (list Node * nat) :=
  if decide (childpos < endpos)%nat then
    match fuel with
    | O => OutOfFuel
    | S fuel' =>
        childpos ← smaller_child heap endpos childpos;
        child ← getitem heap childpos;
        siftup_loop fuel' (<[pos := child]> heap) endpos childpos (2 * childpos + 1)%nat
    end
  else Ok (heap, pos).

Definition _siftup (heap : list Node) (pos : nat) : result (list Node) :=
  let endpos := length heap in
  let startpos := pos in
  newitem ← getitem heap pos;
  '(heap', pos') ← siftup_loop endpos heap endpos pos (2 * pos + 1)%nat;
  _siftdown (<[pos' := newitem]> heap') startpos pos'.

(** [heappush(heap, item)] *)
Definition heappush (heap : list Node) (item : Node) : result (list Node) :=
  let heap := heap ++ [item] in
  _siftdown heap 0 (length heap - 1).

(** [heap.pop()]: removes and returns the last item. *)
Definition list_pop {A} (l : list A) : result (A * list A) :=
  match last l with
  | Some x => Ok (x, removelast l)
  | None => Raise IndexError
  end.

(** [heappop(heap)]: the popped item and the heap left. *)
Definition heappop (heap : list Node) : result (Node * list Node) :=
  '(lastelt, heap) ← list_pop heap;
  match heap with
  | returnitem :: _ =>
      heap ← _siftup (<[0%nat := lastelt]> heap) 0;
      Ok (returnitem, heap)
  | [] => Ok (lastelt, heap)
  end.

(** [heapify(x)]: [for i in reversed(range(n//2)): _siftup(x, i)];
    [k] counts the indices still to visit, [k-1] down to [0]. *)
Fixpoint heapify_loop (k : nat) (x : list Node) : result (list Node) :=
  match k with
  | O => Ok x
  | S i => x ← _siftup x i; heapify_loop i x
  end.

Definition heapify (x : list Node) : result (list Node) :=
  heapify_loop (length x / 2)%nat x.

(** ** [make_tree] *)

Fixpoint make_tree_loop (fuel : nat) (heap : list Node) : result (list Node) :=
  if decide (1 < length heap)%nat then
    match fuel with
    | O => OutOfFuel
    | S fuel' =>
        '(left, heap) ← heappop heap;
        '(right, heap) ← heappop heap;
        let count := count left + count right in
        let node := mkNode count NUL (Some left) (Some right) in
        heap ← heappush heap node;
        make_tree_loop fuel' heap
    end
  else Ok heap.

Definition make_tree (heap : list Node) : result Node :=
  heap ← make_tree_loop (length heap) heap;
  '(root, _) ← heappop heap;
  Ok root.

(** ** Code table *)

Definition is_none {A} (x : option A) : bool :=
  match x with None => true | Some _ => false end.

(** [is_leaf(node)] for a node that is not [None]. *)
Definition is_leaf {T} `{NodeLike T} (node : T) : bool :=
  is_none (left node) && is_none (right node).

(** [make_table_recursive(node, path, table)]: the dictionary is updated in
    place, here it is passed on.  The test [node is None] is made where the
    children are visited. *)
Fixpoint make_table_recursive (node : Node) (path : string)
    (table : gmap ascii string) : gmap ascii string :=
  let visit (child : option Node) (path : string) (table : gmap ascii string) :=
    match child with
    | None => table
    | Some n => make_table_recursive n path table
    end in
  match node with
  | mkNode _ letter left right =>
      if is_leaf node then <[letter := path]> table
      else
        let table := visit left (path +:+ "0") table in
        visit right (path +:+ "1") table
  end.

Definition make_table (root : Node) : gmap ascii string :=
  make_table_recursive root "" ∅.

(** ** [encode] *)

(** The characters a [for] loop over [text] visits. *)
Definition chars (text : string) : list ascii := list_ascii_of_string text.

(** [Counter(text)]: a dictionary in insertion order, each key with the
    number of its occurrences. *)
Fixpoint counter_incr (elem : ascii) (c : list (ascii * Z)) : list (ascii * Z) :=
  match c with
  | [] => [(elem, 1)]
  | (k, n) :: c' =>
      if decide (k = elem) then (k, n + 1) :: c' else (k, n) :: counter_incr elem c'
  end.

Definition Counter (text : string) : list (ascii * Z) :=
  foldl (λ c elem, counter_incr elem c) [] (chars text).

(** [table[c]] *)
Definition table_get (table : gmap ascii string) (c : ascii) : result string :=
  match table !! c with
  | Some code => Ok code
  | None => Raise KeyError
  end.

Fixpoint lookup_all (table : gmap ascii string) (text : string) : result (list string) :=
  match text with
  | EmptyString => Ok []
  | String c text' =>
      code ← table_get table c;
      codes ← lookup_all table text';
      Ok (code :: codes)
  end.

Definition encode (text : string) : result (string * Node) :=
  let c := Counter text in
  let nodes := (λ '(letter, count), mkNode count letter None None) <$> c in
  heap ← heapify nodes;
  root ← make_tree heap;
  let table := make_table root in
  codes ← lookup_all table text;
  Ok (String.concat "" codes, root).

(** ** [decode] *)

(** [''.join(result)]: every item must be a string. *)
Fixpoint str_join (items : list pyvalue) : result string :=
  match items with
  | [] => Ok ""
  | PStr s :: items' => rest ← str_join items'; Ok (s +:+ rest)
  | _ :: _ => Raise TypeError
  end.

(** One step of the walk: [node.left] on ['0'], [node.right] on anything
    else. *)
Definition descend {T} `{NodeLike T} (c : ascii) (node : T) : option T :=
  if Ascii.eqb c "0" then left node else right node.

(** The loop of [decode]: [node] is the current node, [res] the letters
    found so far.  A step onto a missing child makes [is_leaf(None)] raise
    [AttributeError]. *)
Fixpoint decode_loop {T} `{NodeLike T} (tree : T) (code : string) (node : T)
    (res : list pyvalue) : result (list pyvalue) :=
  match code with
  | EmptyString => Ok res
  | String c code' =>
      match descend c node with
      | None => Raise AttributeError
      | Some node =>
          if is_leaf node then decode_loop tree code' tree (res ++ [letter node])
          else decode_loop tree code' node res
      end
  end.

Definition decode {T} `{NodeLike T} (code : string) (tree : T) : result string :=
  res ← decode_loop tree code tree [];
  str_join res.

(** ** Tree persistence *)

(** [tree_for_compression(tree)] on a [Node] tree, as [encode_to_files]
    calls it.  A child that is not [None] is a non-empty tuple, hence true
    in [if tree.left]. *)
Fixpoint tree_for_compression (tree : Node) : CompressNode :=
  match tree with
  | mkNode _ _ l r =>
      let left := match l with Some n => Some (tree_for_compression n) | None => None end in
      let right := match r with Some n => Some (tree_for_compression n) | None => None end in
      mkCompressNode (letter tree) left right
  end.

(** The same function applied to a tree that is a [CompressNode] already
    (the attributes it reads are those of [NodeLike]). *)
Fixpoint tree_for_compression' (tree : CompressNode) : CompressNode :=
  match tree with
  | mkCompressNode _ l r =>
      let left := match l with Some n => Some (tree_for_compression' n) | None => None end in
      let right := match r with Some n => Some (tree_for_compression' n) | None => None end in
      mkCompressNode (letter tree) left right
  end.

(** What [json.load] reads back from what [json.dump(tree, file)] wrote: a
    namedtuple is written as an array, [None] as [null]. *)
Fixpoint json_dump (tree : CompressNode) : pyvalue :=
  match tree with
  | mkCompressNode letter l r =>
      PList [letter;
             match l with Some n => json_dump n | None => PNone end;
             match r with Some n => json_dump n | None => PNone end]
  end.

(** [list_to_tree(l)].  [l[0]], [l[1]] and [l[2]] are read in this order,
    each child right after its test.  Subscripting [None], a boolean or an
    integer raises [TypeError]; on a string the subscripts yield
    one-character strings, so that [l[1]] is out of range at once or one
    call deeper. *)
Fixpoint list_to_tree (l : pyvalue) : result CompressNode :=
  match l with
  | PList (letter :: l1 :: rest) =>
      left ← (if truthy l1 then t ← list_to_tree l1; Ok (Some t) else Ok None);
      match rest with
      | l2 :: _ =>
          right ← (if truthy l2 then t ← list_to_tree l2; Ok (Some t) else Ok None);
          Ok (mkCompressNode letter left right)
      | [] => Raise IndexError
      end
  | PList _ => Raise IndexError
  | PStr _ => Raise IndexError
  | PNone | PBool _ | PInt _ => Raise TypeError
  end.

(** *** The interpreter's stack

    [list_to_tree] above is the function on a stack that never runs out.
    The interpreter gives every call a stack frame and raises
    [RecursionError] on a call that finds none left;
    [sys.getrecursionlimit()] frames, 1000 as CPython ships, are there in
    all. *)
Definition recursion_limit : nat := 1000%nat.

(** What [l[i]] ranges over: the items of a list, the one-character strings
    of a string; [None], booleans and integers are not subscriptable. *)
Definition items (l : pyvalue) : result (list pyvalue) :=
  match l with
  | PList xs => Ok xs
  | PStr s => Ok ((λ c, PStr (String c "")) <$> list_ascii_of_string s)
  | PNone | PBool _ | PInt _ => Raise TypeError
  end.

(** [list_to_tree(l)] called with [frames] stack frames left. *)
Fixpoint list_to_tree_in (frames : nat) (l : pyvalue) : result CompressNode :=
  match frames with
  | O => Raise RecursionError
  | S frames =>
      xs ← items l;
      letter ← getitem xs 0;
      l1 ← getitem xs 1;
      left ← (if truthy l1 then t ← list_to_tree_in frames l1; Ok (Some t) else Ok None);
      l2 ← getitem xs 2;
      right ← (if truthy l2 then t ← list_to_tree_in frames l2; Ok (Some t) else Ok None);
      Ok (mkCompressNode letter left right)
  end.

(** ** Packed code file *)

(** [s[start:stop]] for [0 <= start <= stop]. *)
Definition slice (s : string) (start stop : nat) : string :=
  String.substring start (stop - start) s.

(** [s[start:]] for any integer [start]: a negative [start] counts from the
    end, and [-0] is [0]. *)
Definition slice_from (s : string) (start : Z) : string :=
  let n := Z.of_nat (String.length s) in
  let start := if start <? 0 then Z.max (start + n) 0 else Z.min start n in
  String.substring (Z.to_nat start) (String.length s - Z.to_nat start) s.

(** [int(s, 2)] on strings of binary digits; the empty string is not a
    literal.  (Signs, blanks, underscores and the [0b] prefix, which Python
    accepts too, do not occur in code strings.) *)
Fixpoint int2_digits (s : string) (acc : Z) : result Z :=
  match s with
  | EmptyString => Ok acc
  | String c s' =>
      if Ascii.eqb c "0" then int2_digits s' (2 * acc)
      else if Ascii.eqb c "1" then int2_digits s' (2 * acc + 1)
      else Raise ValueError
  end.

Definition int2 (s : string) : result Z :=
  match s with
  | EmptyString => Raise ValueError
  | _ => int2_digits s 0
  end.

(** [bytes(data)]: every item must be in [range(256)]. *)
Fixpoint to_bytes (data : list Z) : result (list byte) :=
  match data with
  | [] => Ok []
  | x :: data' =>
      match (if (0 <=? x) && (x <? 256) then Byte.of_N (Z.to_N x) else None) with
      | Some b => bs ← to_bytes data'; Ok (b :: bs)
      | None => Raise ValueError
      end
  end.

(** The [for i in range(len(code) // 8)] loop, [i] running over [indices]. *)
Fixpoint pack_loop (code : string) (prefix_len : nat) (indices : list nat) : result (list Z) :=
  match indices with
  | [] => Ok []
  | i :: indices' =>
      let byte := slice code (prefix_len + 8 * i) (prefix_len + 8 * (i + 1)) in
      x ← int2 byte;
      data ← pack_loop code prefix_len indices';
      Ok (x :: data)
  end.

(** [encode_to_files(text, codefile, treefile)]: the bytes written to
    [codefile] and the JSON value written to [treefile].  Both files are
    opened only after [data] is complete. *)
Definition encode_to_files (text : string) : result (list byte * pyvalue) :=
  '(code, tree) ← encode text;
  let prefix_len := (String.length code mod 8)%nat in
  data ← pack_loop code prefix_len (seq 0 (String.length code / 8));
  x ← int2 (slice code 0 prefix_len);
  let data := [Z.of_nat prefix_len; x] ++ data in
  data ← to_bytes data;
  Ok (data, json_dump (tree_for_compression tree)).

(** [byte_to_bits(byte)] *)
Definition byte_to_bits (byte : Z) : string :=
  string_of_list_ascii
    ((λ n, if Z.land byte (Z.shiftl 1 (7 - n)) =? 0 then "0"%char else "1"%char)
       <$> seqZ 0 8).

Definition int_of_byte (b : byte) : Z := Z.of_N (Byte.to_N b).

(** The part of [decode_from_files] that rebuilds the code string from the
    bytes [bts] of the code file. *)
Definition unpack (bts : list byte) : result string :=
  b0 ← getitem bts 0;
  let prefix_len := int_of_byte b0 in
  let codes := (λ x, byte_to_bits (int_of_byte x)) <$> drop 1 bts in
  c0 ← getitem codes 0;
  let codes := <[0%nat := slice_from c0 (- prefix_len)]> codes in
  Ok (String.concat "" codes).

(** [decode_from_files(codefile, treefile)] on the bytes [bts] of the code
    file and the value [lst] that [json.load] reads from the tree file. *)
Definition decode_from_files (bts : list byte) (lst : pyvalue) : result string :=
  tree ← list_to_tree lst;
  code ← unpack bts;
  decode code tree.

End Huffman.

Import Huffman.

(** * Specification vocabulary *)

(** A code string read as [decode] reads it: every character other than
    ['0'] counts as ['1']. *)
Fixpoint force_bits (code : string) : string :=
  match code with
  | EmptyString => EmptyString
  | String c code' => String (if Ascii.eqb c "0" then "0" else "1")%char (force_bits code')
  end.

(** [s] is made of the characters ['0'] and ['1']. *)
Fixpoint all_bits (s : string) : bool :=
  match s with
  | EmptyString => true
  | String c s' => (Ascii.eqb c "0" || Ascii.eqb c "1") && all_bits s'
  end.

(** The node reached from [node] along [path], if every step finds a child. *)
Fixpoint walk {T} `{NodeLike T} (node : T) (path : string) : option T :=
  match path with
  | EmptyString => Some node
  | String c path' =>
      match descend c node with
      | Some n => walk n path'
      | None => None
      end
  end.

(** The walk of [decode] finds a node at every step: no descent from the
    current node yields [None]. *)
Fixpoint walk_safe {T} `{NodeLike T} (tree : T) (code : string) (node : T) : Prop :=
  match code with
  | EmptyString => True
  | String c code' =>
      match descend c node with
      | None => False
      | Some n => walk_safe tree code' (if is_leaf n then tree else n)
      end
  end.

(** [path] leads from [node] to a leaf that holds [c]. *)
Definition leaf_at (node : Node) (path : string) (c : ascii) : Prop :=
  ∃ n, walk node path = Some n ∧ is_leaf n = true ∧ Node_letter n = c.

(** The letters of the leaves, left to right. *)
Fixpoint leaves (node : Node) : list ascii :=
  match node with
  | mkNode _ letter l r =>
      if is_leaf node then [letter]
      else from_option leaves [] l ++ from_option leaves [] r
  end.

(** The letter of a node as the Python string [decode] collects. *)
Definition letter_str (c : ascii) : pyvalue := PStr (String c "").

(** The leaves [encode] makes of the items of a counter. *)
Definition leaf_nodes (c : list (ascii * Z)) : list Node :=
  (λ '(letter, count), mkNode count letter None None) <$> c.

(** The visit of a child in [make_table_recursive]: nothing on [None]. *)
Definition make_table_visit (child : option Node) (path : string)
    (table : gmap ascii string) : gmap ascii string :=
  match child with
  | None => table
  | Some n => make_table_recursive n path table
  end.

(** The errors of Python's containers for a missing item: [IndexError] of
    a list, [KeyError] of a dictionary. *)
Definition container_error (e : exn) : bool :=
  match e with
  | IndexError | KeyError => true
  | _ => false
  end.

(** [x] has the nested three-element form of a persisted tree: a symbol or
    [null], then for each child [null] or a value of the same form. *)
Fixpoint tree_form (x : pyvalue) : bool :=
  let child_form (y : pyvalue) : bool :=
    match y with
    | PNone => true
    | _ => tree_form y
    end in
  match x with
  | PList [sym; l; r] =>
      match sym with PNone | PStr _ => true | _ => false end
      && child_form l && child_form r
  | _ => false
  end.

(** The child slot of a persisted node: [null], or a persisted tree. *)
Definition child_form (y : pyvalue) : bool :=
  match y with
  | PNone => true
  | _ => tree_form y
  end.

(** A child as [json_dump] writes it. *)
Definition dump_child (o : option CompressNode) : pyvalue :=
  match o with Some n => json_dump n | None => PNone end.

(** A child as [list_to_tree] reads it. *)
Definition load_child (y : pyvalue) : result (option CompressNode) :=
  if truthy y then t ← list_to_tree y; Ok (Some t) else Ok None.

(** The persisted tree [b] has the shape of [a] and the letters of [a] at
    its nodes. *)
Fixpoint same_shape (a : Node) (b : CompressNode) : Prop :=
  let children (x : option Node) (y : option CompressNode) : Prop :=
    match x, y with
    | Some x', Some y' => same_shape x' y'
    | None, None => True
    | _, _ => False
    end in
  match a, b with
  | mkNode _ la lefta righta, mkCompressNode lb leftb rightb =>
      lb = PStr (String la "") ∧ children lefta leftb ∧ children righta rightb
  end.

(** A tree as [make_tree] builds them from the leaves of a text without
    ['\0']: a leaf holds a letter other than ['\0'], an internal node holds
    ['\0'] and has both children. *)
Fixpoint well_formed (n : Node) : Prop :=
  match n with
  | mkNode _ a l r =>
      match l, r with
      | None, None => a ≠ NUL
      | Some l', Some r' => a = NUL ∧ well_formed l' ∧ well_formed r'
      | _, _ => False
      end
  end.

(** In strict mode the nodes are well formed; otherwise they are any. *)
Definition good (strict : bool) (n : Node) : Prop :=
  if strict then well_formed n else True.

(** The call returns; unless the mode is strict it may also raise the
    [TypeError] of a comparison.  It never exhausts the loop budget. *)
Definition completes (strict : bool) {A} (r : result A) : Prop :=
  match r with
  | Ok _ => True
  | Raise TypeError => strict = false
  | _ => False
  end.

(** The number of edges on the longest path from [n] down to a leaf. *)
Fixpoint height (n : Node) : nat :=
  match n with
  | mkNode _ _ l r =>
      Nat.max (match l with Some l' => S (height l') | None => 0%nat end)
              (match r with Some r' => S (height r') | None => 0%nat end)
  end.

(** How deep lists are nested in [x]: 0 for a value that is not a list. *)
Fixpoint nesting (x : pyvalue) : nat :=
  match x with
  | PList l => S (foldr (λ y, Nat.max (nesting y)) 0%nat l)
  | _ => 0%nat
  end.

(** The height of the deepest tree over the 256 characters.  The recursive
    functions of the module go one call deeper with every level of a tree;
    their models have no stack, and are those functions on the trees up to
    this height, far from the interpreter's recursion limit. *)
Definition max_depth : nat := 255%nat.

(** A persisted tree that goes [d] levels down on the left before its
    leaf. *)
Definition deep_list (d : nat) : pyvalue :=
  Nat.iter d (λ y, PList [PNone; y; PNone]) (PList [PStr "a"; PNone; PNone]).

(** [t] is built from the nodes of [heap] by Huffman's rule: as long as
    there are two nodes, a node [l] of least count and a node [r] of least
    count among the others are replaced by a node with [l] as left and [r]
    as right child, which carries the sum of their counts. *)
Inductive huffman : list Node → Node → Prop :=
  | huffman_one n : huffman [n] n
  | huffman_join heap l r rest t :
      heap ≡ₚ l :: r :: rest →
      (∀ x, x ∈ r :: rest → count l ≤ count x) →
      (∀ x, x ∈ rest → count r ≤ count x) →
      huffman (mkNode (count l + count r) NUL (Some l) (Some r) :: rest) t →
      huffman heap t.

(** The tree of a text with the two symbols [a] and [b], once each. *)
Definition tree_ab : Node :=
  mkNode 2 NUL (Some (mkNode 1 "a" None None)) (Some (mkNode 1 "b" None None)).

(** The tree of a text with the three symbols [a], [b] and [c], once each. *)
Definition tree_abc : Node :=
  mkNode 3 NUL (Some (mkNode 1 "c" None None)) (Some tree_ab).

(** Every node of [n] has no child or two, and [P count letter left right]
    holds at those that have two. *)
Fixpoint all_internal (P : Z → ascii → Node → Node → Prop) (n : Node) : Prop :=
  match n with
  | mkNode c a l r =>
      match l, r with
      | None, None => True
      | Some l', Some r' => P c a l' r' ∧ all_internal P l' ∧ all_internal P r'
      | _, _ => False
      end
  end.

(** Every node has no child or two. *)
Definition full : Node → Prop := all_internal (λ _ _ _ _, True).

(** The count of a node with children is the sum of their counts. *)
Definition counted : Node → Prop := all_internal (λ c _ l r, c = count l + count r).

(** The left child never has a larger count than the right child. *)
Definition ordered : Node → Prop := all_internal (λ _ _ l r, count l ≤ count r).

(** The leaves with their counts, left to right. *)
Fixpoint leaf_counts (node : Node) : list (ascii * Z) :=
  match node with
  | mkNode c a l r =>
      if is_leaf node then [(a, c)]
      else from_option leaf_counts [] l ++ from_option leaf_counts [] r
  end.

(** The number of occurrences of [c] in [text]. *)
Definition occurrences (c : ascii) (text : string) : Z :=
  Z.of_nat (length (filter (λ x, x = c) (chars text))).

(** The sum of the counts of the nodes of a heap. *)
Definition total_count (heap : list Node) : Z := foldr Z.add 0 (count <$> heap).

(** Position [c] of a heap is a child of position [p]. *)
Definition is_child (p c : nat) : Prop := c = (2 * p + 1)%nat ∨ c = (2 * p + 2)%nat.

(** The heap property on counts, from position [s] on: no item at a
    position [p >= s] has a larger count than its children. *)
Definition heap_from (s : nat) (heap : list Node) : Prop :=
  ∀ p c a b, (s ≤ p)%nat → is_child p c →
             heap !! p = Some a → heap !! c = Some b → count a ≤ count b.

(** Position [c] lies in the subtree of the heap rooted at position [s]. *)
Inductive below (s : nat) : nat → Prop :=
  | below_root : below s s
  | below_child p c : below s p → is_child p c → below s c.

(** [cnt[c]] on a counter: 0 for a missing key. *)
Fixpoint counter_get (c : ascii) (cnt : list (ascii * Z)) : Z :=
  match cnt with
  | [] => 0
  | (k, n) :: cnt' => if decide (k = c) then n else counter_get c cnt'
  end.

(** The values [list_to_tree] returns on: lists of at least three items
    whose second and third items are false in a test, or such lists again. *)
Fixpoint accepts (x : pyvalue) : bool :=
  match x with
  | PList (_ :: l1 :: l2 :: _) =>
      (negb (truthy l1) || accepts l1) && (negb (truthy l2) || accepts l2)
  | _ => false
  end.

(** A heap in which the item at [pos] is being moved: away from [pos], the
    heap property holds from [s] on, and it holds between the parent and
    the children of [pos]. *)
Definition gap_ok (s pos : nat) (heap : list Node) : Prop :=
  (∀ p c a b, (s ≤ p)%nat → is_child p c → p ≠ pos → c ≠ pos →
              heap !! p = Some a → heap !! c = Some b → count a ≤ count b) ∧
  (∀ g c a b, (s ≤ g)%nat → is_child g pos → is_child pos c →
              heap !! g = Some a → heap !! c = Some b → count a ≤ count b).

(** Moreover [newitem] is not above the children of [pos] in count. *)
Definition hole_ok (s pos : nat) (newitem : Node) (heap : list Node) : Prop :=
  gap_ok s pos heap ∧
  (∀ c b, is_child pos c → heap !! c = Some b → count newitem ≤ count b).

(** * Induction principles for the nested tree types *)

Lemma Node_ind' (P : Node → Prop) :
  (∀ count letter l r,
     from_option P True l → from_option P True r → P (mkNode count letter l r)) →
  ∀ n, P n.
Proof.
  intros step. fix IH 1.
  intros [c a [l|] [r|]]; apply step; simpl; try exact I; apply IH.
Qed.

Lemma CompressNode_ind' (P : CompressNode → Prop) :
  (∀ letter l r,
     from_option P True l → from_option P True r → P (mkCompressNode letter l r)) →
  ∀ n, P n.
Proof.
  intros step. fix IH 1.
  intros [a [l|] [r|]]; apply step; simpl; try exact I; apply IH.
Qed.

Lemma pyvalue_ind' (P : pyvalue → Prop) :
  P PNone → (∀ b, P (PBool b)) → (∀ n, P (PInt n)) → (∀ s, P (PStr s)) →
  (∀ l, Forall P l → P (PList l)) →
  ∀ x, P x.
Proof.
  intros HNone HBool HInt HStr HList. fix IH 1.
  intros [|b|n|s|l];
    [exact HNone | exact (HBool b) | exact (HInt n) | exact (HStr s) | apply HList].
  refine ((fix go (l : list pyvalue) : Forall P l :=
             match l with
             | [] => Forall_nil_2 P
             | y :: l' => Forall_cons_2 P y l' (IH y) (go l')
             end) l).
Qed.

(** * The error monad *)

Lemma bind_Ok {A B} (r : result A) (k : A → result B) (b : B) :
  (r ≫= k) = Ok b → ∃ a, r = Ok a ∧ k a = Ok b.
Proof. destruct r as [a| |]; cbn; [eauto | discriminate ..]. Qed.

Lemma getitem_Ok {A} (l : list A) (i : nat) (x : A) :
  getitem l i = Ok x ↔ l !! i = Some x.
Proof. unfold getitem. destruct (l !! i); split; congruence. Qed.

(** Splits a hypothesis [(x ← r; k) = Ok b] into [r = Ok x] and [k x = Ok b]. *)
Tactic Notation "inv_bind" hyp(H) "as" simple_intropattern(x) ident(Hx) :=
  apply bind_Ok in H as (x & Hx & H).

Lemma bind_completes (strict : bool) {A B} (r : result A) (k : A → result B) :
  completes strict r → (∀ a, r = Ok a → completes strict (k a)) →
  completes strict (r ≫= k).
Proof. destruct r as [a|e|]; cbn; [auto | done | done]. Qed.

Lemma completes_true_Ok {A} (r : result A) : completes true r → ∃ a, r = Ok a.
Proof. destruct r as [a|[]|]; cbn; try done. eauto. Qed.

Lemma getitem_completes (strict : bool) {A} (l : list A) (i : nat) :
  (i < length l)%nat → completes strict (getitem l i).
Proof.
  intros [x Hx]%lookup_lt_is_Some_2. unfold getitem. by rewrite Hx.
Qed.

(** * Strings *)

Local Arguments String.append : simpl nomatch.

Lemma append_nil_r (s : string) : s +:+ "" = s.
Proof. induction s as [|c s IH]; cbn; [reflexivity | by rewrite IH]. Qed.

Lemma append_assoc (s1 s2 s3 : string) : (s1 +:+ s2) +:+ s3 = s1 +:+ (s2 +:+ s3).
Proof. induction s1 as [|c s1 IH]; cbn; [reflexivity | by rewrite IH]. Qed.

Lemma append_cons (c : ascii) (s1 s2 : string) :
  String c s1 +:+ s2 = String c (s1 +:+ s2).
Proof. reflexivity. Qed.

Lemma append_snoc (s : string) (c : ascii) (p : string) :
  (s +:+ String c "") +:+ p = s +:+ String c p.
Proof. rewrite append_assoc. reflexivity. Qed.

Lemma append_inv_l (s p q : string) : s +:+ p = s +:+ q → p = q.
Proof. induction s as [|c s IH]; cbn; [auto | intros [= ?]; auto]. Qed.

Lemma concat_cons (x : string) (xs : list string) :
  String.concat "" (x :: xs) = x +:+ String.concat "" xs.
Proof. destruct xs; cbn; [by rewrite append_nil_r | reflexivity]. Qed.

Lemma prefix_append (s1 s2 : string) :
  String.prefix s1 s2 = true → ∃ q, s2 = s1 +:+ q.
Proof.
  revert s2. induction s1 as [|c s1 IH]; intros s2 Hp.
  - exists s2. reflexivity.
  - destruct s2 as [|c' s2]; [discriminate|]. cbn in Hp.
    destruct (ascii_dec c c') as [<-|]; [|discriminate].
    destruct (IH _ Hp) as [q ->]. exists q. reflexivity.
Qed.

(** * Walks *)

Section Walks.
Context {T : Type} `{NodeLike T}.

Lemma walk_app (node : T) (p q : string) :
  walk node (p +:+ q) = walk node p ≫= λ n, walk n q.
Proof.
  revert node. induction p as [|c p IH]; intros node; cbn; [reflexivity|].
  destruct (descend c node); [apply IH | reflexivity].
Qed.

Lemma descend_leaf (c : ascii) (node : T) :
  is_leaf node = true → descend c node = None.
Proof.
  unfold is_leaf, descend. intros [Hl Hr]%andb_prop.
  destruct (left node), (right node), (Ascii.eqb c "0"); done.
Qed.

(** A walk that has reached a leaf cannot go on. *)
Lemma walk_leaf (node n : T) (q : string) :
  is_leaf node = true → walk node q = Some n → q = "".
Proof.
  intros Hleaf. destruct q as [|c q]; [reflexivity|]. cbn.
  rewrite (descend_leaf c node Hleaf). discriminate.
Qed.

Lemma descend_not_leaf (c : ascii) (node n : T) :
  descend c node = Some n → is_leaf node = false.
Proof.
  unfold is_leaf, descend.
  destruct (left node), (right node), (Ascii.eqb c "0"); done.
Qed.
End Walks.

(** Two paths to leaves, one a prefix of the other, are the same path to
    the same leaf. *)
Lemma leaf_at_prefix (root : Node) (p q : string) (a b : ascii) :
  leaf_at root p a → leaf_at root (p +:+ q) b → q = "" ∧ a = b.
Proof.
  intros (n & Hn & Hleaf & Ha) (m & Hm & _ & Hb).
  rewrite walk_app, Hn in Hm. cbn in Hm.
  pose proof (walk_leaf _ _ _ Hleaf Hm) as ->. cbn in Hm.
  split; [reflexivity | congruence].
Qed.

Lemma descend_0 {T} `{NodeLike T} (node : T) : descend "0" node = left node.
Proof. reflexivity. Qed.

Lemma descend_1 {T} `{NodeLike T} (node : T) : descend "1" node = right node.
Proof. reflexivity. Qed.

Lemma leaf_at_left (node l : Node) (p : string) (c : ascii) :
  left node = Some l → leaf_at l p c → leaf_at node (String "0" p) c.
Proof.
  intros Hl (n & Hn & Hleaf). exists n. split; [|exact Hleaf].
  cbn [walk]. rewrite descend_0, Hl. exact Hn.
Qed.

Lemma leaf_at_right (node r : Node) (p : string) (c : ascii) :
  right node = Some r → leaf_at r p c → leaf_at node (String "1" p) c.
Proof.
  intros Hr (n & Hn & Hleaf). exists n. split; [|exact Hleaf].
  cbn [walk]. rewrite descend_1, Hr. exact Hn.
Qed.

(** * [decode] reads every character but ['0'] as ['1'] *)

Lemma descend_force_bit {T} `{NodeLike T} (c : ascii) (node : T) :
  descend (if Ascii.eqb c "0" then "0" else "1")%char node = descend c node.
Proof. unfold descend. destruct (Ascii.eqb c "0"); reflexivity. Qed.

Lemma decode_loop_force_bits {T} `{NodeLike T} (tree : T) (code : string) :
  ∀ node res,
    decode_loop tree (force_bits code) node res = decode_loop tree code node res.
Proof.
  induction code as [|c code IH]; intros node res; simpl; [reflexivity|].
  rewrite descend_force_bit.
  destruct (descend c node) as [n|]; [|reflexivity].
  destruct (is_leaf n); apply IH.
Qed.

(** C10: [decode] does not validate its input.  A character other than ['0']
    makes the walk take the right child, whatever it is, so that decoding a
    string gives the result of decoding the string in which each such
    character is replaced by ['1']. *)
Theorem decode_no_validation {T} `{NodeLike T} (code : string) (tree : T) :
  (∀ c node, c ≠ "0"%char → descend c node = right node) ∧
  decode code tree = decode (force_bits code) tree.
Proof.
  split.
  - intros c node Hc. unfold descend.
    destruct (Ascii.eqb_spec c "0"); [contradiction|reflexivity].
  - unfold decode. rewrite decode_loop_force_bits. reflexivity.
Qed.

Lemma decode_no_validation_witness :
  descend "x" tree_ab = right tree_ab ∧ decode "0x" tree_ab = decode "01" tree_ab.
Proof.
  destruct (decode_no_validation "0x" tree_ab) as [Hstep Hdecode].
  split; [apply Hstep; discriminate | exact Hdecode].
Defined.

(** * Persisted trees decode like the trees they come from *)

Lemma tree_for_compression_letter (n : Node) :
  letter (tree_for_compression n) = letter n.
Proof. destruct n; reflexivity. Qed.

Lemma tree_for_compression_left (n : Node) :
  left (tree_for_compression n) = tree_for_compression <$> left n.
Proof. destruct n as [c a [l|] r]; reflexivity. Qed.

Lemma tree_for_compression_right (n : Node) :
  right (tree_for_compression n) = tree_for_compression <$> right n.
Proof. destruct n as [c a l [r|]]; reflexivity. Qed.

Lemma tree_for_compression_is_leaf (n : Node) :
  is_leaf (tree_for_compression n) = is_leaf n.
Proof.
  unfold is_leaf.
  rewrite tree_for_compression_left, tree_for_compression_right.
  destruct (left n), (right n); reflexivity.
Qed.

Lemma tree_for_compression_descend (c : ascii) (n : Node) :
  descend c (tree_for_compression n) = tree_for_compression <$> descend c n.
Proof.
  unfold descend. destruct (Ascii.eqb c "0");
    [apply tree_for_compression_left | apply tree_for_compression_right].
Qed.

Lemma decode_loop_tree_for_compression (tree : Node) (code : string) :
  ∀ node res,
    decode_loop (tree_for_compression tree) code (tree_for_compression node) res
    = decode_loop tree code node res.
Proof.
  induction code as [|c code IH]; intros node res; cbn [decode_loop]; [reflexivity|].
  rewrite tree_for_compression_descend.
  destruct (descend c node) as [n|]; cbn [fmap option_fmap option_map]; [|reflexivity].
  rewrite tree_for_compression_is_leaf, tree_for_compression_letter.
  destruct (is_leaf n); apply IH.
Qed.

Lemma decode_tree_for_compression (code : string) (tree : Node) :
  decode code (tree_for_compression tree) = decode code tree.
Proof. unfold decode. rewrite decode_loop_tree_for_compression. reflexivity. Qed.

Lemma truthy_json_dump (t : CompressNode) : truthy (json_dump t) = true.
Proof. destruct t; reflexivity. Qed.

(** Reading back what was dumped gives the tree that was dumped. *)
Lemma list_to_tree_json_dump (t : CompressNode) :
  list_to_tree (json_dump t) = Ok t.
Proof.
  induction t as [a l r IHl IHr] using CompressNode_ind'.
  cbn [json_dump list_to_tree].
  destruct l as [l|], r as [r|]; simpl in IHl, IHr;
    rewrite ?truthy_json_dump, ?IHl, ?IHr; reflexivity.
Qed.

Lemma tree_for_compression'_id (t : CompressNode) :
  tree_for_compression' t = t.
Proof.
  induction t as [a l r IHl IHr] using CompressNode_ind'.
  destruct l as [l|], r as [r|]; simpl in *; rewrite ?IHl, ?IHr; reflexivity.
Qed.

Lemma same_shape_tree_for_compression (n : Node) :
  same_shape n (tree_for_compression n).
Proof.
  induction n as [c a l r IHl IHr] using Node_ind'.
  destruct l as [l|], r as [r|]; simpl in *; auto.
Qed.

(** * Reading a persisted tree and writing it again *)

Lemma tree_form_truthy (x : pyvalue) : tree_form x = true → truthy x = true.
Proof. destruct x as [| | | |[|? ?]]; simpl; congruence. Qed.

Lemma tree_form_unfold (sym l r : pyvalue) :
  tree_form (PList [sym; l; r])
  = match sym with PNone | PStr _ => true | _ => false end
    && child_form l && child_form r.
Proof. reflexivity. Qed.

Lemma load_child_form (y : pyvalue) :
  (tree_form y = true →
   ∃ t, list_to_tree y = Ok t ∧ json_dump (tree_for_compression' t) = y) →
  child_form y = true →
  ∃ o, load_child y = Ok o ∧ dump_child o = y.
Proof.
  intros IH Hform. unfold load_child.
  assert (Hy : y = PNone ∨ tree_form y = true)
    by (destruct y; [left; reflexivity | right; exact Hform ..]).
  destruct Hy as [->|Htf].
  - exists None. split; reflexivity.
  - destruct (IH Htf) as (t & Hload & Hdump).
    rewrite (tree_form_truthy _ Htf), Hload. exists (Some t).
    split; [reflexivity|]. rewrite tree_for_compression'_id in Hdump. exact Hdump.
Qed.

Lemma list_to_tree_tree_form (x : pyvalue) :
  tree_form x = true →
  ∃ t, list_to_tree x = Ok t ∧ json_dump (tree_for_compression' t) = x.
Proof.
  induction x as [| | | |l IH] using pyvalue_ind'; try discriminate.
  destruct l as [|sym [|lc [|rc [|? ?]]]]; try discriminate.
  rewrite tree_form_unfold. intros Hform.
  apply andb_prop in Hform as [Hform Hr]. apply andb_prop in Hform as [_ Hl].
  inversion IH as [|? ? _ IH1]; subst. inversion IH1 as [|? ? IHl IH2]; subst.
  inversion IH2 as [|? ? IHr _]; subst.
  destruct (load_child_form lc IHl Hl) as (ol & Hol & Hdl).
  destruct (load_child_form rc IHr Hr) as (or & Hor & Hdr).
  exists (mkCompressNode sym ol or). split.
  - cbn [list_to_tree]. fold (load_child lc). fold (load_child rc).
    rewrite Hol. cbn [mbind result_bind]. rewrite Hor. reflexivity.
  - rewrite tree_for_compression'_id. cbn [json_dump].
    fold (dump_child ol). fold (dump_child or). rewrite Hdl, Hdr. reflexivity.
Qed.

(** * Round trips of persisted trees *)

(** C9: [decode] reads the shape and the letters of the tree only.  For a
    tree that [encode] returned, the tree read back from the file that
    [tree_for_compression] and [json.dump] wrote (counts removed) decodes
    every code string like the tree with counts. *)
Theorem decode_ignores_counts (text code : string) (tree : Node) (bits : string) :
  encode text = Ok (code, tree) →
  ∃ t, list_to_tree (json_dump (tree_for_compression tree)) = Ok t ∧
       decode bits t = decode bits tree.
Proof.
  intros _. exists (tree_for_compression tree).
  split; [apply list_to_tree_json_dump | apply decode_tree_for_compression].
Qed.

Lemma decode_ignores_counts_witness :
  ∃ t, list_to_tree (json_dump (tree_for_compression tree_ab)) = Ok t ∧
       decode "0110" t = decode "0110" tree_ab.
Proof.
  apply (decode_ignores_counts "ab" "01" tree_ab "0110").
  vm_compute. reflexivity.
Defined.

(** * The code table *)

Lemma make_table_recursive_unfold (node : Node) (path : string)
    (table : gmap ascii string) :
  make_table_recursive node path table =
    if is_leaf node then <[Node_letter node := path]> table
    else make_table_visit (right node) (path +:+ "1")
           (make_table_visit (left node) (path +:+ "0") table).
Proof. destruct node as [c a [l|] [r|]]; reflexivity. Qed.

(** Every entry of the table is an old entry or the path to a leaf, written
    with ['0'] and ['1']. *)
Lemma make_table_recursive_sound (node : Node) :
  ∀ path table c code,
    make_table_recursive node path table !! c = Some code →
    table !! c = Some code
    ∨ ∃ p, code = path +:+ p ∧ all_bits p = true ∧ leaf_at node p c.
Proof.
  induction node as [cnt a l r IHl IHr] using Node_ind'.
  intros path table c code. rewrite make_table_recursive_unfold.
  destruct (is_leaf (mkNode cnt a l r)) eqn:Hleaf.
  - cbn [Node_letter]. destruct (decide (a = c)) as [->|Hne].
    + rewrite lookup_insert_eq. intros [= <-]. right. exists "".
      split_and!; [by rewrite append_nil_r | done |].
      eexists. split; [reflexivity|]. done.
    + rewrite lookup_insert_ne by done. auto.
  - cbn [left right Node_like]. intros Hlook.
    assert (Hr : make_table_visit l (path +:+ "0") table !! c = Some code
                 ∨ ∃ p, code = path +:+ p ∧ all_bits p = true
                        ∧ leaf_at (mkNode cnt a l r) p c).
    { destruct r as [r|]; [|left; exact Hlook]. cbn in Hlook, IHr.
      destruct (IHr _ _ _ _ Hlook) as [?|(p & -> & Hbits & Hp)]; [left; done|].
      right. exists (String "1" p). split_and!; [by rewrite append_snoc | done |].
      by eapply leaf_at_right. }
    destruct Hr as [Hl|?]; [|right; done].
    destruct l as [l|]; [|left; exact Hl]. cbn in Hl, IHl.
    destruct (IHl _ _ _ _ Hl) as [?|(p & -> & Hbits & Hp)]; [left; done|].
    right. exists (String "0" p). split_and!; [by rewrite append_snoc | done |].
    by eapply leaf_at_left.
Qed.

Lemma make_table_sound (root : Node) (c : ascii) (code : string) :
  make_table root !! c = Some code → leaf_at root code c.
Proof.
  intros Hlook.
  apply make_table_recursive_sound in Hlook as [Hempty|(p & -> & _ & Hp)].
  - rewrite lookup_empty in Hempty. discriminate.
  - exact Hp.
Qed.

Lemma make_table_bits (root : Node) (c : ascii) (code : string) :
  make_table root !! c = Some code → all_bits code = true.
Proof.
  intros Hlook.
  apply make_table_recursive_sound in Hlook as [Hempty|(p & -> & Hbits & _)].
  - rewrite lookup_empty in Hempty. discriminate.
  - exact Hbits.
Qed.

Lemma make_table_prefix_free (root : Node) (a b : ascii) (ca cb : string) :
  a ≠ b →
  make_table root !! a = Some ca →
  make_table root !! b = Some cb →
  String.prefix ca cb = false.
Proof.
  intros Hne Ha%make_table_sound Hb%make_table_sound.
  destruct (String.prefix ca cb) eqn:Hp; [|reflexivity].
  apply prefix_append in Hp as [q ->].
  destruct (leaf_at_prefix _ _ _ _ _ Ha Hb) as [_ ?]. contradiction.
Qed.

(** C6: in the code table derived from a tree that [make_tree] built, the
    codes of two distinct symbols are not prefixes of one another. *)
Theorem code_table_prefix_free (heap : list Node) (root : Node)
    (a b : ascii) (ca cb : string) :
  make_tree heap = Ok root →
  a ≠ b →
  make_table root !! a = Some ca →
  make_table root !! b = Some cb →
  String.prefix ca cb = false ∧ String.prefix cb ca = false.
Proof.
  intros _ Hne Ha Hb. split.
  - by eapply make_table_prefix_free.
  - eapply make_table_prefix_free; [|exact Hb|exact Ha]. congruence.
Qed.

Lemma code_table_prefix_free_witness :
  String.prefix "0" "1" = false ∧ String.prefix "1" "0" = false.
Proof.
  apply (code_table_prefix_free
           [mkNode 1 "a" None None; mkNode 1 "b" None None] tree_ab "a" "b" "0" "1").
  - vm_compute. reflexivity.
  - discriminate.
  - vm_compute. reflexivity.
  - vm_compute. reflexivity.
Defined.

(** ** Every leaf gets a code *)

Lemma leaves_unfold (node : Node) :
  leaves node =
    if is_leaf node then [Node_letter node]
    else from_option leaves [] (left node) ++ from_option leaves [] (right node).
Proof. destruct node; reflexivity. Qed.

Lemma make_table_recursive_keys (node : Node) :
  ∀ path table c,
    is_Some (table !! c) ∨ c ∈ leaves node →
    is_Some (make_table_recursive node path table !! c).
Proof.
  induction node as [cnt a l r IHl IHr] using Node_ind'.
  intros path table c. rewrite make_table_recursive_unfold, leaves_unfold.
  destruct (is_leaf (mkNode cnt a l r)).
  - cbn [Node_letter]. rewrite lookup_insert_is_Some, list_elem_of_singleton.
    destruct (decide (a = c)); intuition.
  - cbn [left right Node_like]. rewrite elem_of_app. intros Hc.
    assert (Hl : is_Some (make_table_visit l (path +:+ "0") table !! c)
                 ∨ c ∈ from_option leaves [] r).
    { destruct Hc as [Hc|[Hc|Hc]]; [| |by right]; left.
      - destruct l as [l|]; [apply IHl; by left | done].
      - destruct l as [l|]; [apply IHl; by right | by apply elem_of_nil in Hc]. }
    destruct r as [r|]; cbn in *.
    + by apply IHr.
    + destruct Hl as [?|Hnil]; [done | by apply elem_of_nil in Hnil].
Qed.

Lemma lookup_all_completes (strict : bool) (table : gmap ascii string) (text : string) :
  (∀ c, c ∈ chars text → is_Some (table !! c)) →
  completes strict (lookup_all table text).
Proof.
  induction text as [|c text IH]; intros Hall; cbn [lookup_all]; [done|].
  destruct (Hall c) as [code Hcode]; [by left|].
  unfold table_get. rewrite Hcode. cbn [mbind result_bind].
  apply bind_completes; [|done]. apply IH. intros c' Hc'. apply Hall. by right.
Qed.

(** * Updates of a list as permutations *)

Section ListSwap.
Context {A : Type}.
Implicit Types (l : list A) (x a : A).

Lemma insert_cons_swap l (j : nat) x a :
  (j < length l)%nat → x :: <[j := a]> l ≡ₚ a :: <[j := x]> l.
Proof.
  revert j. induction l as [|b l IH]; intros [|j] Hj; cbn in *; try lia.
  - apply perm_swap.
  - rewrite (perm_swap b x), (IH j) by lia. apply perm_swap.
Qed.

(** Moving [l[i]] into slot [j] and then a new item into slot [i] is, up to
    order, putting the new item into slot [j]. *)
Lemma insert_move l (i j : nat) x a :
  l !! i = Some a → i ≠ j → (j < length l)%nat →
  <[i := x]> (<[j := a]> l) ≡ₚ <[j := x]> l.
Proof.
  revert i j. induction l as [|b l IH]; intros [|i] [|j] Hi Hne Hj;
    cbn in *; try lia; try done.
  - injection Hi as ->. apply insert_cons_swap. lia.
  - rewrite <- (list_insert_id l i a) at 2 by done.
    symmetry. apply insert_cons_swap. by eapply lookup_lt_Some.
  - rewrite (IH i j) by (done || lia). done.
Qed.
End ListSwap.

(** * [heapq] keeps the items of the heap *)

Lemma parentpos_lt (pos : nat) : (0 < pos)%nat → (Nat.shiftr (pos - 1) 1 < pos)%nat.
Proof.
  intros Hpos. rewrite Nat.shiftr_div_pow2. change (2 ^ 1)%nat with 2%nat.
  pose proof (Nat.Div0.div_le_upper_bound (pos - 1) 2 (pos - 1)). lia.
Qed.

Lemma siftdown_loop_perm (fuel : nat) :
  ∀ heap newitem startpos pos heap',
    (pos < length heap)%nat →
    siftdown_loop fuel heap newitem startpos pos = Ok heap' →
    heap' ≡ₚ <[pos := newitem]> heap.
Proof.
  induction fuel as [|fuel IH]; intros heap newitem startpos pos heap' Hpos;
    cbn [siftdown_loop]; destruct (decide (startpos < pos)%nat) as [Hlt|_];
    try discriminate; try (by intros [= <-]).
  intros Hrun. inv_bind Hrun as parent Hparent. inv_bind Hrun as b Hb.
  apply getitem_Ok in Hparent.
  pose proof (parentpos_lt pos ltac:(lia)) as Hlt'.
  destruct b; [|by injection Hrun as <-].
  apply IH in Hrun; [|rewrite length_insert; lia].
  rewrite Hrun. apply insert_move; [done | lia | done].
Qed.

Lemma _siftdown_perm (heap : list Node) (startpos pos : nat) (heap' : list Node) :
  _siftdown heap startpos pos = Ok heap' → heap' ≡ₚ heap.
Proof.
  unfold _siftdown. intros Hrun. inv_bind Hrun as newitem Hnew.
  apply getitem_Ok in Hnew.
  apply siftdown_loop_perm in Hrun; [|by eapply lookup_lt_Some].
  by rewrite Hrun, list_insert_id.
Qed.

Lemma smaller_child_range (heap : list Node) (endpos childpos childpos' : nat) :
  (childpos < endpos)%nat →
  smaller_child heap endpos childpos = Ok childpos' →
  (childpos ≤ childpos' < endpos)%nat.
Proof.
  intros Hlt. unfold smaller_child.
  destruct (decide (childpos + 1 < endpos)%nat); [|intros [= <-]; lia].
  intros Hsel. inv_bind Hsel as c Hc. inv_bind Hsel as r Hr. inv_bind Hsel as b Hb.
  injection Hsel as <-. destruct (negb b); lia.
Qed.

Lemma siftup_loop_perm (fuel : nat) :
  ∀ heap endpos pos childpos heap' pos' newitem,
    (pos < childpos)%nat → (pos < length heap)%nat →
    siftup_loop fuel heap endpos pos childpos = Ok (heap', pos') →
    (pos' < length heap')%nat ∧ <[pos' := newitem]> heap' ≡ₚ <[pos := newitem]> heap.
Proof.
  induction fuel as [|fuel IH];
    intros heap endpos pos childpos heap' pos' newitem Hchild Hpos;
    cbn [siftup_loop]; destruct (decide (childpos < endpos)%nat) as [Hlt|_];
    try discriminate; try (by intros [= <- <-]).
  intros Hrun. inv_bind Hrun as childpos' Hsel. inv_bind Hrun as child Hget.
  apply getitem_Ok in Hget.
  apply smaller_child_range in Hsel as [Hge _]; [|done].
  apply (IH _ _ _ _ _ _ newitem) in Hrun as [Hpos' Hperm];
    [|lia|rewrite length_insert; by eapply lookup_lt_Some].
  split; [done|]. rewrite Hperm. apply insert_move; [done | lia | done].
Qed.

Lemma _siftup_perm (heap : list Node) (pos : nat) (heap' : list Node) :
  _siftup heap pos = Ok heap' → heap' ≡ₚ heap.
Proof.
  unfold _siftup. intros Hrun. inv_bind Hrun as newitem Hnew.
  apply getitem_Ok in Hnew. inv_bind Hrun as [heap1 pos1] Hup.
  apply (siftup_loop_perm _ _ _ _ _ _ _ newitem) in Hup as [Hpos1 Hperm];
    [|lia|by eapply lookup_lt_Some].
  apply _siftdown_perm in Hrun. by rewrite Hrun, Hperm, list_insert_id.
Qed.

Lemma heappush_perm (heap : list Node) (item : Node) (heap' : list Node) :
  heappush heap item = Ok heap' → heap' ≡ₚ item :: heap.
Proof.
  unfold heappush. intros Hrun. apply _siftdown_perm in Hrun.
  by rewrite Hrun, Permutation_app_comm.
Qed.

Lemma list_pop_Ok {A} (l : list A) (x : A) (l' : list A) :
  list_pop l = Ok (x, l') ↔ l = l' ++ [x].
Proof.
  unfold list_pop. destruct l as [|a l] using rev_ind.
  - split; [discriminate | by destruct l'].
  - rewrite last_snoc, removelast_last. split.
    + by intros [= -> ->].
    + by intros [-> [= ->]]%app_inj_tail.
Qed.

Lemma heappop_perm (heap : list Node) (item : Node) (heap' : list Node) :
  heappop heap = Ok (item, heap') → heap ≡ₚ item :: heap'.
Proof.
  unfold heappop. intros Hrun. inv_bind Hrun as [lastelt heap1] Hpop.
  apply list_pop_Ok in Hpop as ->. destruct heap1 as [|returnitem heap1].
  - by injection Hrun as <- <-.
  - inv_bind Hrun as heap2 Hup. injection Hrun as <- <-. apply _siftup_perm in Hup.
    cbn in Hup. rewrite Hup, <- Permutation_cons_append. apply perm_swap.
Qed.

Lemma heapify_loop_perm (k : nat) :
  ∀ x x', heapify_loop k x = Ok x' → x' ≡ₚ x.
Proof.
  induction k as [|k IH]; intros x x'; cbn [heapify_loop]; [by intros [= <-]|].
  intros Hrun. inv_bind Hrun as x1 Hup. apply _siftup_perm in Hup. apply IH in Hrun.
  by rewrite Hrun.
Qed.

Lemma heapify_perm (x x' : list Node) : heapify x = Ok x' → x' ≡ₚ x.
Proof. apply heapify_loop_perm. Qed.

(** * [make_tree] *)

Lemma leaves_merge (c : Z) (a : ascii) (l r : Node) :
  leaves (mkNode c a (Some l) (Some r)) = leaves l ++ leaves r.
Proof. reflexivity. Qed.

Lemma make_tree_loop_spec (fuel : nat) :
  ∀ heap heap',
    make_tree_loop fuel heap = Ok heap' →
    (length heap' ≤ 1)%nat ∧
    heap' ≫= leaves ≡ₚ heap ≫= leaves ∧
    ((2 ≤ length heap)%nat → ∃ c l r, heap' = [mkNode c NUL (Some l) (Some r)]).
Proof.
  induction fuel as [|fuel IH]; intros heap heap'; cbn [make_tree_loop];
    destruct (decide (1 < length heap)%nat) as [Hlen|Hlen]; try discriminate;
    try (intros [= <-]; split_and!; [lia | done | lia]).
  intros Hrun. inv_bind Hrun as [l h1] Hpop1. inv_bind Hrun as [r h2] Hpop2.
  inv_bind Hrun as h3 Hpush.
  apply heappop_perm in Hpop1. apply heappop_perm in Hpop2.
  pose proof Hpush as Hpush'. apply heappush_perm in Hpush'.
  destruct (IH _ _ Hrun) as (Hlen' & Hperm & Hroot).
  split_and!; [done| |intros _].
  - rewrite Hperm, Hpush', Hpop1, Hpop2, !bind_cons, leaves_merge.
    by rewrite (assoc_L (++)).
  - destruct (decide (2 ≤ length h3)%nat) as [Hh3|Hh3]; [by apply Hroot|].
    apply Permutation_length in Hpush' as Hl3. cbn in Hl3.
    destruct h2; [|cbn in Hl3; lia].
    apply Permutation_singleton_r in Hpush' as ->.
    destruct fuel; cbn in Hrun; injection Hrun as <-; eauto.
Qed.

Lemma make_tree_spec (heap : list Node) (root : Node) :
  make_tree heap = Ok root →
  leaves root ≡ₚ heap ≫= leaves ∧ ((2 ≤ length heap)%nat → is_leaf root = false).
Proof.
  unfold make_tree. intros Hrun. inv_bind Hrun as heap1 Hloop.
  inv_bind Hrun as [root' rest] Hpop. injection Hrun as ->.
  apply make_tree_loop_spec in Hloop as (Hlen & Hperm & Hroot).
  apply heappop_perm in Hpop. apply Permutation_length in Hpop as Hlen1.
  cbn in Hlen1. destruct rest; [|cbn in Hlen1; lia].
  split.
  - rewrite <- Hperm, Hpop, bind_cons. cbn. by rewrite (right_id_L [] (++)).
  - intros Hheap. destruct (Hroot Hheap) as (c & l & r & ->).
    apply Permutation_singleton_l in Hpop. by simplify_eq.
Qed.

(** * [Counter] *)

Lemma counter_incr_keys (elem : ascii) (c : list (ascii * Z)) :
  (counter_incr elem c).*1 = if decide (elem ∈ c.*1) then c.*1 else c.*1 ++ [elem].
Proof.
  induction c as [|[k n] c IH]; cbn; [by rewrite decide_False by apply not_elem_of_nil|].
  destruct (decide (k = elem)) as [->|Hne]; cbn.
  - by rewrite decide_True by left.
  - rewrite IH. destruct (decide (elem ∈ c.*1)) as [Hin|Hnin].
    + by rewrite decide_True by by right.
    + rewrite decide_False; [done|]. intros [?|?]%elem_of_cons; done.
Qed.

Lemma Counter_fold_keys (l : list ascii) :
  ∀ (c : list (ascii * Z)) x,
    x ∈ (foldl (λ c elem, counter_incr elem c) c l).*1 ↔ x ∈ c.*1 ∨ x ∈ l.
Proof.
  induction l as [|e l IH]; intros c x; cbn.
  - rewrite elem_of_nil. tauto.
  - rewrite IH, counter_incr_keys, elem_of_cons.
    destruct (decide (e ∈ c.*1)); [|rewrite elem_of_app, list_elem_of_singleton];
      intuition (subst; auto).
Qed.

Lemma Counter_keys (text : string) (x : ascii) :
  x ∈ (Counter text).*1 ↔ x ∈ chars text.
Proof.
  unfold Counter. rewrite Counter_fold_keys. cbn. rewrite elem_of_nil. tauto.
Qed.

Lemma two_elements_length {A} (l : list A) (a b : A) :
  a ≠ b → a ∈ l → b ∈ l → (2 ≤ length l)%nat.
Proof.
  intros Hne Ha Hb. destruct l as [|x [|y l]]; cbn; [|exfalso|lia].
  - by apply elem_of_nil in Ha.
  - apply list_elem_of_singleton in Ha, Hb. congruence.
Qed.

(** * Decoding what was encoded *)

Section Decode.
Context {T : Type} `{NodeLike T}.

Lemma decode_loop_safe (tree : T) (code : string) :
  ∀ node res out, decode_loop tree code node res = Ok out → walk_safe tree code node.
Proof.
  induction code as [|c code IH]; intros node res out; cbn; [done|].
  destruct (descend c node) as [n|]; [|discriminate].
  destruct (is_leaf n); apply IH.
Qed.

(** Reading the path to a leaf emits the letter of the leaf and puts the
    walk back at the root. *)
Lemma decode_loop_path (tree : T) (p : string) :
  ∀ node n rest res,
    walk node p = Some n → p ≠ "" → is_leaf n = true →
    decode_loop tree (p +:+ rest) node res
    = decode_loop tree rest tree (res ++ [letter n]).
Proof.
  induction p as [|c p IH]; intros node n rest res Hwalk Hp Hleaf; [done|].
  cbn [walk] in Hwalk. rewrite append_cons. cbn [decode_loop].
  destruct (descend c node) as [m|]; [|discriminate].
  destruct p as [|c' p].
  - injection Hwalk as ->. by rewrite Hleaf.
  - assert (is_leaf m = false) as ->.
    { cbn [walk] in Hwalk. destruct (descend c' m) eqn:Hm; [|discriminate].
      by eapply descend_not_leaf. }
    by apply IH.
Qed.
End Decode.

Lemma lookup_all_cons (table : gmap ascii string) (c : ascii) (text : string)
    (codes : list string) :
  lookup_all table (String c text) = Ok codes →
  ∃ code codes', table !! c = Some code ∧ lookup_all table text = Ok codes'
                 ∧ codes = code :: codes'.
Proof.
  cbn [lookup_all]. intros Hrun. inv_bind Hrun as code Hcode.
  inv_bind Hrun as codes' Hcodes. injection Hrun as <-.
  exists code, codes'. split_and!; [|done..].
  unfold table_get in Hcode. destruct (table !! c); congruence.
Qed.

Lemma decode_loop_codes (tree : Node) (text : string) :
  is_leaf tree = false →
  ∀ codes res,
    lookup_all (make_table tree) text = Ok codes →
    decode_loop tree (String.concat "" codes) tree res
    = Ok (res ++ (letter_str <$> chars text)).
Proof.
  intros Hroot. induction text as [|c text IH]; intros codes res Hcodes.
  - injection Hcodes as <-. cbn. by rewrite (right_id_L [] (++)).
  - apply lookup_all_cons in Hcodes as (code & codes' & Hcode & Hcodes & ->).
    apply make_table_sound in Hcode as (n & Hwalk & Hleaf & Hletter).
    rewrite concat_cons, (decode_loop_path tree code tree n); [|done| |done].
    + rewrite (IH _ _ Hcodes). cbn. rewrite <- (assoc_L (++)). cbn.
      unfold letter_str. by rewrite Hletter.
    + intros ->. cbn in Hwalk. congruence.
Qed.

Lemma str_join_letters (text : string) :
  str_join (letter_str <$> chars text) = Ok text.
Proof.
  unfold chars. induction text as [|c text IH]; [done|].
  cbn [list_ascii_of_string]. rewrite fmap_cons. cbn [str_join letter_str].
  by rewrite IH.
Qed.

(** A tree that is not a single leaf decodes the code [encode] returned
    with it to the text. *)
Lemma decode_encode (text code : string) (tree : Node) :
  encode text = Ok (code, tree) → is_leaf tree = false → decode code tree = Ok text.
Proof.
  unfold encode. intros Hrun Hroot. inv_bind Hrun as heap Hheap.
  inv_bind Hrun as root Htree. inv_bind Hrun as codes Hcodes.
  injection Hrun as <- <-. unfold decode.
  rewrite (decode_loop_codes root text Hroot _ _ Hcodes). cbn.
  apply str_join_letters.
Qed.

Lemma encode_not_leaf (text code : string) (tree : Node) (a b : ascii) :
  encode text = Ok (code, tree) →
  a ≠ b → a ∈ chars text → b ∈ chars text →
  is_leaf tree = false.
Proof.
  unfold encode. intros Hrun Hne Ha Hb. inv_bind Hrun as heap Hheap.
  inv_bind Hrun as root Htree. inv_bind Hrun as codes Hcodes.
  injection Hrun as _ <-. apply make_tree_spec in Htree as [_ Hroot].
  apply Hroot. apply heapify_perm, Permutation_length in Hheap. rewrite Hheap.
  rewrite length_fmap, <- (length_fmap fst).
  apply (two_elements_length _ a b Hne); by apply Counter_keys.
Qed.

(** C8: when the text has at least two distinct symbols, the walk of
    [decode] over the code that [encode] returned, in the tree returned with
    it, finds a node at every step, and [decode] returns (the text) without
    an [AttributeError] from a missing child. *)
Theorem decode_walk_safe (text code : string) (tree : Node) (a b : ascii) :
  a ≠ b → a ∈ chars text → b ∈ chars text →
  encode text = Ok (code, tree) →
  walk_safe tree code tree ∧ decode code tree = Ok text.
Proof.
  intros Hne Ha Hb Henc.
  assert (Hdec : decode code tree = Ok text).
  { apply decode_encode; [done|]. by eapply encode_not_leaf. }
  split; [|done]. unfold decode in Hdec. inv_bind Hdec as res Hres.
  by eapply decode_loop_safe.
Qed.

Lemma decode_walk_safe_witness :
  walk_safe tree_ab "01" tree_ab ∧ decode "01" tree_ab = Ok "ab".
Proof.
  apply (decode_walk_safe "ab" "01" tree_ab "a" "b").
  - discriminate.
  - vm_compute. repeat constructor.
  - vm_compute. repeat constructor.
  - vm_compute. reflexivity.
Defined.

(** * When [encode] returns *)

Lemma node_lt_unfold (a b : Node) :
  node_lt a b =
    let opt_lt x y :=
      match x, y with
      | Some x', Some y' => node_lt x' y'
      | _, _ => Raise TypeError
      end in
    if negb (Z.eqb (count a) (count b)) then Ok (Z.ltb (count a) (count b))
    else if negb (Ascii.eqb (Node_letter a) (Node_letter b))
      then Ok (letter_ltb (Node_letter a) (Node_letter b))
    else if negb (opt_eqb (left a) (left b)) then opt_lt (left a) (left b)
    else if negb (opt_eqb (right a) (right b)) then opt_lt (right a) (right b)
    else Ok false.
Proof. destruct a, b; reflexivity. Qed.

Lemma node_lt_completes (strict : bool) (a : Node) :
  ∀ b, good strict a → good strict b → completes strict (node_lt a b).
Proof.
  induction a as [ca la l r IHl IHr] using Node_ind'.
  intros [cb lb l' r'] Ha Hb. rewrite node_lt_unfold. cbn -[node_lt].
  destruct (ca =? cb); cbn -[node_lt]; [|done].
  destruct (Ascii.eqb_spec la lb) as [<-|]; cbn -[node_lt]; [|done].
  destruct strict; cbn in Ha, Hb.
  - destruct l as [l|], r as [r|]; try done;
      destruct l' as [l'|], r' as [r'|]; try done.
    + destruct Ha as (-> & Hl & Hr), Hb as (_ & Hl' & Hr').
      destruct (opt_eqb (Some l) (Some l')); cbn -[node_lt]; [|by apply IHl].
      destruct (node_eqb r r'); cbn -[node_lt]; [done|by apply IHr].
    + by destruct Ha as [-> _].
    + by destruct Hb as [-> _].
  - destruct (opt_eqb l l'); cbn -[node_lt].
    + destruct (opt_eqb r r'); cbn -[node_lt]; [done|].
      destruct r as [r|], r' as [r'|]; try done. by apply IHr.
    + destruct l as [l|], l' as [l'|]; try done. by apply IHl.
Qed.

Lemma good_lookup (strict : bool) (heap : list Node) (i : nat) (x : Node) :
  Forall (good strict) heap → heap !! i = Some x → good strict x.
Proof. intros Hheap. by apply Forall_lookup_1. Qed.

Lemma siftdown_loop_completes (strict : bool) (fuel : nat) :
  ∀ heap newitem startpos pos,
    Forall (good strict) heap → good strict newitem →
    (pos < length heap)%nat → (pos ≤ fuel)%nat →
    completes strict (siftdown_loop fuel heap newitem startpos pos).
Proof.
  induction fuel as [|fuel IH]; intros heap newitem startpos pos Hheap Hnew Hpos Hfuel;
    cbn [siftdown_loop]; destruct (decide (startpos < pos)%nat) as [Hlt|_];
    try done; [lia|].
  pose proof (parentpos_lt pos ltac:(lia)) as Hparent.
  apply bind_completes; [apply getitem_completes; lia|].
  intros parent Hp%getitem_Ok.
  apply bind_completes; [apply node_lt_completes; [done | by eapply good_lookup]|].
  intros [] _; [|done].
  apply IH; [|done|rewrite length_insert; lia|lia].
  apply Forall_insert; [done | by eapply good_lookup].
Qed.

Lemma _siftdown_completes (strict : bool) (heap : list Node) (startpos pos : nat) :
  Forall (good strict) heap → (pos < length heap)%nat →
  completes strict (_siftdown heap startpos pos).
Proof.
  intros Hheap Hpos. unfold _siftdown.
  apply bind_completes; [by apply getitem_completes|].
  intros newitem Hnew%getitem_Ok.
  apply siftdown_loop_completes; [done | by eapply good_lookup | done | done].
Qed.

Lemma smaller_child_completes (strict : bool) (heap : list Node) (childpos : nat) :
  Forall (good strict) heap → (childpos < length heap)%nat →
  completes strict (smaller_child heap (length heap) childpos).
Proof.
  intros Hheap Hlt. unfold smaller_child.
  destruct (decide (childpos + 1 < length heap)%nat); [|done].
  apply bind_completes; [by apply getitem_completes|]. intros c Hc%getitem_Ok.
  apply bind_completes; [by apply getitem_completes|]. intros r Hr%getitem_Ok.
  apply bind_completes; [apply node_lt_completes; by eapply good_lookup|]. done.
Qed.

Lemma siftup_loop_completes (strict : bool) (fuel : nat) :
  ∀ heap pos childpos,
    Forall (good strict) heap → (length heap ≤ fuel + childpos)%nat →
    completes strict (siftup_loop fuel heap (length heap) pos childpos).
Proof.
  induction fuel as [|fuel IH]; intros heap pos childpos Hheap Hfuel;
    cbn [siftup_loop]; destruct (decide (childpos < length heap)%nat) as [Hlt|_];
    try done; [lia|].
  apply bind_completes; [by apply smaller_child_completes|].
  intros childpos' [Hge Hlt']%smaller_child_range; [|done].
  apply bind_completes; [by apply getitem_completes|]. intros child Hchild%getitem_Ok.
  rewrite <- (length_insert heap pos child). apply IH.
  - apply Forall_insert; [done | by eapply good_lookup].
  - rewrite length_insert. lia.
Qed.

Lemma _siftup_completes (strict : bool) (heap : list Node) (pos : nat) :
  Forall (good strict) heap → (pos < length heap)%nat →
  completes strict (_siftup heap pos).
Proof.
  intros Hheap Hpos. unfold _siftup.
  apply bind_completes; [by apply getitem_completes|]. intros newitem Hnew%getitem_Ok.
  apply bind_completes; [apply siftup_loop_completes; [done | lia]|].
  intros [heap' pos'] Hup.
  apply (siftup_loop_perm _ _ _ _ _ _ _ newitem) in Hup as [Hpos' Hperm]; [|lia|done].
  rewrite (list_insert_id heap pos newitem Hnew) in Hperm.
  apply _siftdown_completes; [by rewrite Hperm | by rewrite length_insert].
Qed.

Lemma heappush_completes (strict : bool) (heap : list Node) (item : Node) :
  Forall (good strict) heap → good strict item →
  completes strict (heappush heap item).
Proof.
  intros Hheap Hitem. unfold heappush. apply _siftdown_completes.
  - apply Forall_app. by split; [|apply Forall_singleton].
  - rewrite length_app. cbn. lia.
Qed.

Lemma heappop_completes (strict : bool) (heap : list Node) :
  Forall (good strict) heap → heap ≠ [] → completes strict (heappop heap).
Proof.
  intros Hheap Hne. unfold heappop.
  destruct heap as [|lastelt heap _] using rev_ind; [done|clear Hne].
  rewrite (proj2 (list_pop_Ok _ lastelt heap) eq_refl). cbn [mbind result_bind].
  apply Forall_app in Hheap as [Hheap [Hlast _]%Forall_cons].
  destruct heap as [|returnitem heap]; [done|].
  apply bind_completes; [|done]. apply _siftup_completes; [|cbn; lia].
  apply Forall_insert; done.
Qed.

Lemma heapify_loop_completes (strict : bool) (k : nat) :
  ∀ x, Forall (good strict) x → (k ≤ length x)%nat →
       completes strict (heapify_loop k x).
Proof.
  induction k as [|k IH]; intros x Hx Hk; cbn [heapify_loop]; [done|].
  apply bind_completes; [apply _siftup_completes; [done | lia]|].
  intros x' Hperm. apply _siftup_perm in Hperm. apply IH; rewrite Hperm; [done | lia].
Qed.

Lemma heapify_completes (strict : bool) (x : list Node) :
  Forall (good strict) x → completes strict (heapify x).
Proof.
  intros Hx. apply heapify_loop_completes; [done|].
  pose proof (Nat.Div0.div_le_upper_bound (length x) 2 (length x)). lia.
Qed.

Lemma make_tree_loop_good (strict : bool) (fuel : nat) :
  ∀ heap heap',
    Forall (good strict) heap →
    make_tree_loop fuel heap = Ok heap' →
    Forall (good strict) heap' ∧ (heap ≠ [] → heap' ≠ []).
Proof.
  induction fuel as [|fuel IH]; intros heap heap' Hheap; cbn [make_tree_loop];
    destruct (decide (1 < length heap)%nat) as [Hlen|Hlen]; try discriminate;
    try (by intros [= <-]).
  intros Hrun. inv_bind Hrun as [l h1] Hpop1. inv_bind Hrun as [r h2] Hpop2.
  inv_bind Hrun as h3 Hpush.
  apply heappop_perm in Hpop1. apply heappop_perm in Hpop2.
  apply heappush_perm in Hpush.
  rewrite Hpop1, Hpop2 in Hheap.
  apply Forall_cons in Hheap as [Hl [Hr Hh2]%Forall_cons].
  apply IH in Hrun as [Hgood Hne].
  - split; [done|]. intros _. apply Hne. intros ->.
    by apply Permutation_nil_cons in Hpush.
  - rewrite Hpush. apply Forall_cons. split; [|done].
    destruct strict; cbn; done.
Qed.

Lemma make_tree_loop_completes (strict : bool) (fuel : nat) :
  ∀ heap, Forall (good strict) heap → (length heap ≤ fuel)%nat →
          completes strict (make_tree_loop fuel heap).
Proof.
  induction fuel as [|fuel IH]; intros heap Hheap Hfuel; cbn [make_tree_loop];
    destruct (decide (1 < length heap)%nat) as [Hlen|Hlen]; try done; [lia|].
  apply bind_completes;
    [apply heappop_completes; [done | intros ->; cbn in Hlen; lia]|].
  intros [l h1] Hpop1%heappop_perm. apply Permutation_length in Hpop1 as Hlen1.
  rewrite Hpop1 in Hheap. apply Forall_cons in Hheap as [Hl Hh1].
  apply bind_completes;
    [apply heappop_completes; [done | intros ->; cbn in Hlen1; lia]|].
  intros [r h2] Hpop2%heappop_perm. apply Permutation_length in Hpop2 as Hlen2.
  rewrite Hpop2 in Hh1. apply Forall_cons in Hh1 as [Hr Hh2].
  assert (Hnode : good strict (mkNode (count l + count r) NUL (Some l) (Some r)))
    by (destruct strict; cbn; done).
  apply bind_completes; [by apply heappush_completes|].
  intros h3 Hpush%heappush_perm. apply Permutation_length in Hpush as Hlen3.
  cbn in Hlen1, Hlen2, Hlen3.
  apply IH; [rewrite Hpush; by apply Forall_cons | lia].
Qed.

Lemma make_tree_completes (strict : bool) (heap : list Node) :
  Forall (good strict) heap → heap ≠ [] → completes strict (make_tree heap).
Proof.
  intros Hheap Hne. unfold make_tree.
  apply bind_completes; [by apply make_tree_loop_completes|].
  intros heap1 Hloop.
  apply (make_tree_loop_good strict) in Hloop as [Hgood Hne1]; [|done].
  apply bind_completes; [apply heappop_completes; auto|]. by intros [root rest] _.
Qed.

(** ** [encode] *)

Lemma leaf_nodes_leaves (c : list (ascii * Z)) : leaf_nodes c ≫= leaves = c.*1.
Proof. induction c as [|[k n] c IH]; [done|]. cbn. by f_equal. Qed.

Lemma leaf_nodes_good (strict : bool) (c : list (ascii * Z)) :
  (strict = true → NUL ∉ c.*1) → Forall (good strict) (leaf_nodes c).
Proof.
  intros Hnul. destruct strict; [|by apply Forall_true].
  specialize (Hnul eq_refl). induction c as [|[k n] c IH]; [constructor|].
  cbn in *. apply not_elem_of_cons in Hnul as [Hk Hnul].
  constructor; [cbn; congruence | by apply IH].
Qed.

Lemma encode_completes (strict : bool) (text : string) :
  text ≠ "" → (strict = true → NUL ∉ chars text) →
  completes strict (encode text).
Proof.
  intros Htext Hnul. unfold encode. fold (leaf_nodes (Counter text)).
  assert (Hgood : Forall (good strict) (leaf_nodes (Counter text))).
  { apply leaf_nodes_good. intros Hs. rewrite Counter_keys. auto. }
  apply bind_completes; [by apply heapify_completes|].
  intros heap Hheap%heapify_perm.
  apply bind_completes.
  { apply make_tree_completes; [by rewrite Hheap|]. intros ->.
    apply Permutation_nil_l in Hheap. destruct text as [|c text]; [done|].
    assert (Hc : c ∈ (Counter (String c text)).*1) by (apply Counter_keys; by left).
    unfold leaf_nodes in Hheap. symmetry in Hheap.
    apply fmap_nil_inv in Hheap. rewrite Hheap in Hc.
    by apply elem_of_nil in Hc. }
  intros root [Hleaves _]%make_tree_spec.
  apply bind_completes; [|done]. apply lookup_all_completes.
  intros c Hc. apply make_table_recursive_keys. right.
  rewrite Hleaves, Hheap, leaf_nodes_leaves. by apply Counter_keys.
Qed.

(** X2: on a text that is not empty, [encode] returns, or a comparison in
    the heap raises [TypeError]; the latter needs a ['\0'] in the text. *)
Theorem encode_outcome (text : string) :
  text ≠ "" →
  ((∃ r, encode text = Ok r) ∨ encode text = Raise TypeError) ∧
  (NUL ∉ chars text → ∃ r, encode text = Ok r).
Proof.
  intros Htext. split.
  - pose proof (encode_completes false text Htext ltac:(done)) as Hc.
    destruct (encode text) as [r|[]|]; cbn in Hc; try done; eauto.
  - intros Hnul. apply completes_true_Ok. by apply encode_completes.
Qed.

Lemma encode_outcome_witness : ∃ r, encode "ab" = Ok r.
Proof. apply (encode_outcome "ab"); [discriminate | compute_done]. Defined.

(** X1: the round trip holds on every text with two distinct symbols and
    no ['\0']: [encode] returns a code and a tree, and [decode] gives the
    text back. *)
Theorem encode_decode_roundtrip (text : string) (a b : ascii) :
  a ≠ b → a ∈ chars text → b ∈ chars text → NUL ∉ chars text →
  ∃ code tree, encode text = Ok (code, tree) ∧ decode code tree = Ok text.
Proof.
  intros Hne Ha Hb Hnul.
  destruct (completes_true_Ok (encode text)) as [[code tree] Henc].
  { apply encode_completes; [|done]. intros ->. by apply elem_of_nil in Ha. }
  exists code, tree. split; [done|].
  apply decode_encode; [done|]. by eapply encode_not_leaf.
Qed.

Lemma encode_decode_roundtrip_witness :
  ∃ code tree, encode "ab" = Ok (code, tree) ∧ decode code tree = Ok "ab".
Proof.
  apply (encode_decode_roundtrip "ab" "a" "b"); [discriminate | compute_done..].
Defined.

(** * The packed code file *)

Lemma all_bits_app (s1 s2 : string) :
  all_bits (s1 +:+ s2) = all_bits s1 && all_bits s2.
Proof.
  induction s1 as [|c s1 IH]; cbn; [done|]. by rewrite IH, Bool.andb_assoc.
Qed.

Lemma lookup_all_bits (root : Node) (text : string) :
  ∀ codes, lookup_all (make_table root) text = Ok codes →
           all_bits (String.concat "" codes) = true.
Proof.
  induction text as [|c text IH]; intros codes Hcodes.
  - by injection Hcodes as <-.
  - apply lookup_all_cons in Hcodes as (code & codes' & Hcode & Hcodes & ->).
    rewrite concat_cons, all_bits_app, (make_table_bits _ _ _ Hcode). by apply IH.
Qed.

Lemma encode_bits (text code : string) (tree : Node) :
  encode text = Ok (code, tree) → all_bits code = true.
Proof.
  unfold encode. intros Hrun. inv_bind Hrun as heap Hheap.
  inv_bind Hrun as root Htree. inv_bind Hrun as codes Hcodes.
  injection Hrun as <- _. by eapply lookup_all_bits.
Qed.

Lemma substring_bits (s : string) :
  ∀ n m, all_bits s = true → all_bits (String.substring n m s) = true.
Proof.
  induction s as [|c s IH]; intros [|n] [|m] Hs; cbn in *; try done;
    apply andb_prop in Hs as [Hc Hs]; rewrite ?Hc; cbn; by apply IH.
Qed.

Lemma substring_length (s : string) :
  ∀ n m, (n + m ≤ String.length s)%nat →
         String.length (String.substring n m s) = m.
Proof.
  induction s as [|c s IH]; intros [|n] [|m] Hlen; cbn in *; try done; try lia.
  - f_equal. apply (IH 0%nat). lia.
  - apply IH. lia.
  - apply IH. lia.
Qed.

Lemma int2_digits_bits (s : string) :
  ∀ acc, all_bits s = true →
         ∃ x, int2_digits s acc = Ok x ∧
              acc * 2 ^ Z.of_nat (String.length s) ≤ x
              < (acc + 1) * 2 ^ Z.of_nat (String.length s).
Proof.
  induction s as [|c s IH]; intros acc Hs.
  - exists acc. cbn. split; [done | lia].
  - cbn [all_bits] in Hs. apply andb_prop in Hs as [Hc Hs].
    cbn [int2_digits String.length]. rewrite Nat2Z.inj_succ, Z.pow_succ_r by lia.
    destruct (Ascii.eqb c "0").
    + destruct (IH (2 * acc) Hs) as (x & -> & Hx). exists x. split; [done | lia].
    + cbn in Hc. rewrite Hc.
      destruct (IH (2 * acc + 1) Hs) as (x & -> & Hx). exists x. split; [done | lia].
Qed.

Lemma int2_bits (s : string) :
  all_bits s = true → s ≠ "" →
  ∃ x, int2 s = Ok x ∧ 0 ≤ x < 2 ^ Z.of_nat (String.length s).
Proof.
  intros Hs Hne. destruct (int2_digits_bits s 0 Hs) as (x & Hx & Hrange).
  exists x. split; [by destruct s | lia].
Qed.

Lemma slice_byte (code : string) (start stop : nat) :
  all_bits code = true →
  (start < stop)%nat → (stop ≤ String.length code)%nat → (stop - start ≤ 8)%nat →
  ∃ x, int2 (slice code start stop) = Ok x ∧ 0 ≤ x < 256.
Proof.
  intros Hbits Hlt Hstop Hlen. unfold slice.
  pose proof (substring_length code start (stop - start) ltac:(lia)) as Hl.
  destruct (int2_bits (String.substring start (stop - start) code)) as (x & Hx & Hr).
  - by apply substring_bits.
  - intros Heq. rewrite Heq in Hl. cbn in Hl. lia.
  - exists x. split; [done|]. rewrite Hl in Hr.
    assert (2 ^ Z.of_nat (stop - start) ≤ 2 ^ 8) by (apply Z.pow_le_mono_r; lia).
    lia.
Qed.

Lemma slice_0_0 (code : string) : slice code 0 0 = "".
Proof. by destruct code. Qed.

Lemma pack_loop_Ok (code : string) (prefix_len : nat) (indices : list nat) :
  all_bits code = true →
  Forall (λ i, prefix_len + 8 * (i + 1) ≤ String.length code)%nat indices →
  ∃ data,
    pack_loop code prefix_len indices = Ok data ∧
    Forall (λ x, 0 ≤ x < 256) data ∧
    Forall2 (λ i x, int2 (slice code (prefix_len + 8 * i) (prefix_len + 8 * (i + 1)))
                    = Ok x) indices data.
Proof.
  intros Hbits. induction indices as [|i indices IH]; intros Hall.
  - exists []. by split_and!.
  - apply Forall_cons in Hall as [Hi Hall]. destruct (IH Hall) as (data & Hdata & Hr & Hv).
    destruct (slice_byte code (prefix_len + 8 * i) (prefix_len + 8 * (i + 1)))
      as (x & Hx & Hxr); [done | lia | done | lia |].
    exists (x :: data). cbn [pack_loop]. rewrite Hx. cbn [mbind result_bind].
    rewrite Hdata. cbn [mbind result_bind]. split_and!; [done | by constructor..].
Qed.

Lemma to_bytes_Ok (data : list Z) :
  Forall (λ x, 0 ≤ x < 256) data →
  ∃ bts, to_bytes data = Ok bts ∧ int_of_byte <$> bts = data.
Proof.
  induction data as [|x data IH]; intros Hall; [by exists []|].
  apply Forall_cons in Hall as [Hx Hall]. destruct (IH Hall) as (bts & Hbts & Hval).
  cbn [to_bytes].
  replace ((0 <=? x) && (x <? 256)) with true
    by (symmetry; apply andb_true_intro; split; [apply Z.leb_le|apply Z.ltb_lt]; lia).
  destruct (Byte.of_N (Z.to_N x)) as [b|] eqn:Hb.
  - exists (b :: bts). rewrite Hbts. split; [done|]. rewrite fmap_cons, Hval.
    f_equal. unfold int_of_byte. rewrite (Byte.to_of_N _ Hb). lia.
  - apply Byte.of_N_None_iff in Hb. lia.
Qed.

(** What [encode_to_files] does with the code of a text: it fails on a
    code whose length is a multiple of 8, and otherwise writes
    [prefix_len], the value of the first [prefix_len] bits, and the values
    of the groups of 8 bits that follow. *)
Lemma encode_to_files_run (text code : string) (tree : Node) :
  encode text = Ok (code, tree) →
  let prefix_len := (String.length code mod 8)%nat in
  (prefix_len = 0%nat → encode_to_files text = Raise ValueError) ∧
  (prefix_len ≠ 0%nat →
   ∃ bts x data,
     encode_to_files text = Ok (bts, json_dump (tree_for_compression tree)) ∧
     int_of_byte <$> bts = Z.of_nat prefix_len :: x :: data ∧
     int2 (slice code 0 prefix_len) = Ok x ∧
     Forall2 (λ i y, int2 (slice code (prefix_len + 8 * i) (prefix_len + 8 * (i + 1)))
                     = Ok y)
             (seq 0 (String.length code / 8)) data).
Proof.
  intros Henc prefix_len. pose proof (encode_bits _ _ _ Henc) as Hbits.
  pose proof (Nat.div_mod_eq (String.length code) 8) as Hdiv.
  pose proof (Nat.mod_upper_bound (String.length code) 8 ltac:(lia)) as Hmod.
  fold prefix_len in Hdiv, Hmod.
  destruct (pack_loop_Ok code prefix_len (seq 0 (String.length code / 8)) Hbits)
    as (data & Hdata & Hrange & Hvalues).
  { apply Forall_seq. intros i Hi. lia. }
  unfold encode_to_files. rewrite Henc. cbn [mbind result_bind].
  fold prefix_len. rewrite Hdata. cbn [mbind result_bind]. split.
  - intros ->. by rewrite slice_0_0.
  - intros Hp.
    destruct (slice_byte code 0 prefix_len) as (x & Hx & Hxr); [done | lia..|].
    rewrite Hx. cbn [mbind result_bind].
    destruct (to_bytes_Ok ([Z.of_nat prefix_len; x] ++ data)) as (bts & Hbts & Hval).
    { repeat constructor; try lia; exact Hrange. }
    rewrite Hbts. cbn [mbind result_bind]. by exists bts, x, data.
Qed.

(** * Unpacking the code file *)

Lemma substring_full (s : string) : String.substring 0 (String.length s) s = s.
Proof. induction s as [|c s IH]; cbn; [done | by rewrite IH]. Qed.

Lemma slice_from_0 (s : string) : slice_from s (- 0) = s.
Proof.
  unfold slice_from. change (- 0 <? 0) with false. cbv iota.
  rewrite Z.min_l by lia. change (Z.to_nat (- 0)) with 0%nat.
  rewrite Nat.sub_0_r. apply substring_full.
Qed.

Lemma byte_to_bits_length (x : Z) : String.length (byte_to_bits x) = 8%nat.
Proof. reflexivity. Qed.

(** A negative start in the range of the string keeps its last characters. *)
Lemma slice_from_last (s : string) (k : nat) :
  (0 < k ≤ String.length s)%nat →
  slice_from s (- Z.of_nat k) = String.substring (String.length s - k) k s.
Proof.
  intros Hk. unfold slice_from.
  replace (- Z.of_nat k <? 0) with true by (symmetry; apply Z.ltb_lt; lia).
  rewrite Z.max_l by lia.
  replace (Z.to_nat (- Z.of_nat k + Z.of_nat (String.length s)))
    with (String.length s - k)%nat by lia.
  f_equal. lia.
Qed.

(** The bits of a byte are its binary digits, most significant first. *)
Lemma byte_to_bits_value (b : byte) :
  all_bits (byte_to_bits (int_of_byte b)) = true ∧
  int2 (byte_to_bits (int_of_byte b)) = Ok (int_of_byte b).
Proof. destruct b; vm_compute; done. Qed.

(** The code string rebuilt from a file with a length byte and at least one
    data byte. *)
Lemma unpack_cons (b0 b1 : byte) (rest : list byte) :
  unpack (b0 :: b1 :: rest)
  = Ok (slice_from (byte_to_bits (int_of_byte b1)) (- int_of_byte b0)
        +:+ String.concat "" ((λ x, byte_to_bits (int_of_byte x)) <$> rest)).
Proof.
  unfold unpack.
  cbn [getitem lookup list_lookup mbind result_bind drop fmap list_fmap
       list_insert insert].
  by rewrite concat_cons.
Qed.

(** Whatever the file, a length byte 0 leaves the 8 bits of the first data
    byte in the code string. *)
Lemma unpack_length_byte_0 (b1 : byte) (rest : list byte) :
  unpack ("000"%byte :: b1 :: rest)
  = Ok (byte_to_bits (int_of_byte b1)
        +:+ String.concat "" ((λ x, byte_to_bits (int_of_byte x)) <$> rest)).
Proof. rewrite unpack_cons. change (int_of_byte "000") with 0. by rewrite slice_from_0. Qed.

(** * The loop budgets suffice *)

Lemma make_tree_fuel (heap : list Node) : make_tree heap ≠ OutOfFuel.
Proof.
  destruct heap as [|n heap]; [done|].
  pose proof (make_tree_completes false (n :: heap)) as Hc.
  intros Heq. rewrite Heq in Hc. apply Hc; [by apply Forall_true | done].
Qed.

Lemma encode_fuel (text : string) : encode text ≠ OutOfFuel.
Proof.
  destruct text as [|c text]; [done|].
  pose proof (encode_completes false (String c text)) as Hc.
  intros Heq. rewrite Heq in Hc. by apply Hc.
Qed.

(** * Texts with a single symbol *)

Lemma Counter_fold_single (c : ascii) (l : list ascii) :
  ∀ k, Forall (λ x, x = c) l →
       foldl (λ cnt elem, counter_incr elem cnt) [(c, k)] l
       = [(c, k + Z.of_nat (length l))].
Proof.
  induction l as [|x l IH]; intros k Hall; cbn [foldl length].
  - do 2 f_equal. lia.
  - apply Forall_cons in Hall as [-> Hall]. cbn [counter_incr].
    rewrite decide_True by done. rewrite IH by done. do 2 f_equal. lia.
Qed.

Lemma lookup_all_single (c : ascii) (code : string) (text : string) :
  Forall (λ x, x = c) (chars text) →
  lookup_all {[c := code]} text = Ok (replicate (String.length text) code).
Proof.
  induction text as [|x text IH]; intros Hall; [done|].
  apply Forall_cons in Hall as [-> Hall]. cbn [lookup_all String.length replicate].
  unfold table_get. rewrite lookup_singleton_eq. cbn [mbind result_bind].
  by rewrite IH.
Qed.

Lemma concat_replicate_empty (n : nat) : String.concat "" (replicate n "") = "".
Proof. induction n as [|n IH]; [done|]. cbn [replicate]. by rewrite concat_cons, IH. Qed.

Lemma chars_length (text : string) : length (chars text) = String.length text.
Proof. unfold chars. induction text as [|c text IH]; cbn; [done | by rewrite IH]. Qed.

Lemma heapify_single (n : Node) : heapify [n] = Ok [n].
Proof. reflexivity. Qed.

Lemma make_tree_single (n : Node) : make_tree [n] = Ok n.
Proof.
  unfold make_tree. cbn [length make_tree_loop].
  rewrite decide_False by lia. reflexivity.
Qed.

Lemma make_table_leaf (k : Z) (c : ascii) :
  make_table (mkNode k c None None) = {[c := ""]}.
Proof. unfold make_table. cbn. apply insert_empty. Qed.

(** On a text made of one symbol, [encode] returns the empty code and a
    tree that is a single leaf. *)
Lemma encode_single_symbol (c : ascii) (text : string) :
  Forall (λ x, x = c) (chars text) →
  encode (String c text)
  = Ok ("", mkNode (1 + Z.of_nat (String.length text)) c None None).
Proof.
  intros Hall. unfold encode, Counter.
  change (chars (String c text)) with (c :: chars text). cbn [foldl counter_incr].
  rewrite Counter_fold_single, chars_length by done.
  cbn [fmap list_fmap]. rewrite heapify_single. cbn [mbind result_bind].
  rewrite make_tree_single. cbn [mbind result_bind].
  rewrite make_table_leaf, (lookup_all_single c "" (String c text)) by by constructor.
  cbn [mbind result_bind]. by rewrite concat_replicate_empty.
Qed.


(** X7: on a text made of copies of one symbol, [encode] returns a tree
    that is a single leaf, the symbol gets the empty code, and decoding
    what [encode] returned gives the empty text. *)
Lemma decode_encode_single_symbol (c : ascii) (text : string) :
  Forall (λ x, x = c) (chars text) →
  ∃ code tree,
    encode (String c text) = Ok (code, tree) ∧
    is_leaf tree = true ∧
    make_table tree !! c = Some "" ∧
    decode code tree = Ok "".
Proof.
  intros Hall. eexists _, _. split; [by apply encode_single_symbol|].
  split_and!; [done | | done].
  by rewrite make_table_leaf, lookup_singleton_eq.
Qed.

Lemma decode_encode_single_symbol_witness :
  ∃ code tree,
    encode "aaa" = Ok (code, tree) ∧
    is_leaf tree = true ∧
    make_table tree !! "a"%char = Some "" ∧
    decode code tree = Ok "".
Proof. apply (decode_encode_single_symbol "a" "aa"). repeat constructor. Defined.

(** * The round trip through the files *)

Lemma all_bits_cons (c : ascii) (s : string) :
  all_bits (String c s) = true → (c = "0"%char ∨ c = "1"%char) ∧ all_bits s = true.
Proof.
  cbn [all_bits]. intros [Hc Hs]%andb_prop. split; [|done].
  apply orb_prop in Hc as [Hc|Hc]; apply Ascii.eqb_eq in Hc; auto.
Qed.

(** The bits of the value of a bit string of at most 8 characters are the
    string, padded with zeros on the left. *)
Lemma byte_to_bits_int2 (s : string) (x : Z) :
  all_bits s = true → (1 ≤ String.length s ≤ 8)%nat → int2 s = Ok x →
  byte_to_bits x = String.substring 0 (8 - String.length s) "00000000" +:+ s.
Proof.
  intros Hbits Hlen Hx.
  do 9 (destruct s as [|c s];
        [first [ cbn in Hlen; lia
               | vm_compute in Hx; injection Hx as <-; vm_compute; reflexivity ]
        | apply all_bits_cons in Hbits as [[->| ->] Hbits] ]).
  all: cbn in Hlen; lia.
Qed.

Lemma substring_app_l (a b : string) :
  String.substring 0 (String.length a) (a +:+ b) = a.
Proof. induction a as [|c a IH]; cbn; [by destruct b | by rewrite IH]. Qed.

Lemma substring_app_r (a b : string) :
  String.substring (String.length a) (String.length b) (a +:+ b) = b.
Proof. induction a as [|c a IH]; cbn; [apply substring_full | done]. Qed.

Lemma substring_skip (a b : string) (k m : nat) :
  String.substring (String.length a + k) m (a +:+ b) = String.substring k m b.
Proof. induction a as [|c a IH]; cbn; done. Qed.

Lemma substring_app_split (s : string) :
  ∀ n m, (n + m ≤ String.length s)%nat →
         String.substring 0 (n + m) s
         = String.substring 0 n s +:+ String.substring n m s.
Proof.
  induction s as [|c s IH]; intros n m Hlen.
  - cbn in Hlen. assert (n = 0 ∧ m = 0)%nat as [-> ->] by lia. reflexivity.
  - destruct n as [|n]; [reflexivity|]. cbn in *. f_equal. apply IH. lia.
Qed.

(** A string is its first [n] characters followed by the rest. *)
Lemma string_split (s : string) (n : nat) :
  (n ≤ String.length s)%nat →
  ∃ a b, s = a +:+ b ∧ String.length a = n
         ∧ String.length b = (String.length s - n)%nat.
Proof.
  intros Hn. exists (String.substring 0 n s), (String.substring n (String.length s - n) s).
  split_and!.
  - rewrite <- substring_app_split by lia.
    replace (n + (String.length s - n))%nat with (String.length s) by lia.
    by rewrite substring_full.
  - apply substring_length. lia.
  - apply substring_length. lia.
Qed.

Lemma app_length (a b : string) :
  String.length (a +:+ b) = (String.length a + String.length b)%nat.
Proof. induction a as [|c a IH]; cbn; [done | by rewrite IH]. Qed.

(** A string of [8 * n] characters is the concatenation of its [n] groups
    of 8 characters. *)
Lemma chunks_concat (n : nat) :
  ∀ s, String.length s = (8 * n)%nat →
       String.concat "" ((λ i, String.substring (8 * i) 8 s) <$> seq 0 n) = s.
Proof.
  induction n as [|n IH]; intros s Hlen.
  - by destruct s.
  - destruct (string_split s 8 ltac:(lia)) as (a & b & -> & Ha & Hb).
    rewrite app_length in Hlen. clear Hb.
    cbn [seq]. rewrite fmap_cons, concat_cons, <- fmap_S_seq, <- list_fmap_compose.
    f_equal.
    + change (8 * 0)%nat with 0%nat. rewrite <- Ha. apply substring_app_l.
    + etrans; [|apply (IH b); lia]. f_equal. apply list_fmap_ext.
      intros _ i _. cbn [compose].
      replace (8 * S i)%nat with (String.length a + 8 * i)%nat by lia.
      apply substring_skip.
Qed.

Lemma lookup_all_leaf (root : Node) (text : string) :
  is_leaf root = true →
  ∀ codes, lookup_all (make_table root) text = Ok codes → String.concat "" codes = "".
Proof.
  intros Hleaf. induction text as [|c text IH]; intros codes Hcodes.
  - by injection Hcodes as <-.
  - apply lookup_all_cons in Hcodes as (code & codes' & Hcode & Hcodes & ->).
    apply make_table_sound in Hcode as (n & Hwalk & _).
    apply (walk_leaf _ _ _ Hleaf) in Hwalk as ->.
    rewrite concat_cons. by apply IH.
Qed.

(** A tree that is a single leaf comes with the empty code. *)
Lemma encode_leaf_code (text code : string) (tree : Node) :
  encode text = Ok (code, tree) → is_leaf tree = true → code = "".
Proof.
  unfold encode. intros Hrun Hleaf. inv_bind Hrun as heap Hheap.
  inv_bind Hrun as root Htree. inv_bind Hrun as codes Hcodes.
  injection Hrun as <- <-. by eapply lookup_all_leaf.
Qed.

(** The bytes after the first data byte give back the groups of 8 bits. *)
Lemma unpack_groups (a b : string) (n : nat) (data : list Z) :
  all_bits b = true → String.length b = (8 * n)%nat →
  Forall2 (λ i y, int2 (slice (a +:+ b) (String.length a + 8 * i)
                              (String.length a + 8 * (i + 1))) = Ok y)
          (seq 0 n) data →
  String.concat "" (byte_to_bits <$> data) = b.
Proof.
  intros Hbits Hlen Hdata. etrans; [|apply (chunks_concat n b Hlen)]. f_equal.
  apply list_eq. intros k. rewrite !list_lookup_fmap.
  destruct (seq 0 n !! k) as [i|] eqn:Hi.
  - destruct (Forall2_lookup_l _ _ _ _ _ Hdata Hi) as (y & -> & Hy). cbn.
    apply lookup_seq in Hi as [-> Hk]. cbv beta in Hy. unfold slice in Hy.
    rewrite Nat.add_0_l in Hy.
    replace (String.length a + 8 * (k + 1) - (String.length a + 8 * k))%nat
      with 8%nat in Hy by lia.
    rewrite substring_skip in Hy. f_equal.
    pose proof (substring_length b (8 * k) 8 ltac:(lia)) as Hl.
    rewrite (byte_to_bits_int2 _ _ (substring_bits b _ _ Hbits)
               ltac:(rewrite Hl; lia) Hy).
    by rewrite Hl.
  - apply lookup_ge_None in Hi. apply Forall2_length in Hdata.
    rewrite (proj2 (lookup_ge_None data k)); [done | lia].
Qed.

(** X3: the file round trip: whatever [encode_to_files] wrote,
    [decode_from_files] reads the text back from it. *)
Theorem file_roundtrip (text : string) (bts : list byte) (lst : pyvalue) :
  encode_to_files text = Ok (bts, lst) → decode_from_files bts lst = Ok text.
Proof.
  intros Hrun. pose proof Hrun as Henc. unfold encode_to_files in Henc.
  inv_bind Henc as [code tree] Hcode. clear Henc.
  destruct (encode_to_files_run _ _ _ Hcode) as [Hzero Hnonzero].
  pose proof (encode_bits _ _ _ Hcode) as Hbits.
  pose proof (Nat.div_mod_eq (String.length code) 8) as Hdiv.
  pose proof (Nat.mod_upper_bound (String.length code) 8 ltac:(lia)) as Hmod.
  set (p := (String.length code mod 8)%nat) in *.
  set (n := (String.length code / 8)%nat) in *.
  destruct (decide (p = 0%nat)) as [Hp|Hp]; [rewrite (Hzero Hp) in Hrun; done|].
  destruct (Hnonzero Hp) as (bts' & x & data & Hrun' & Hbytes & Hx & Hdata).
  rewrite Hrun' in Hrun. injection Hrun as -> <-.
  destruct bts as [|b0 [|b1 rest]]; try discriminate.
  rewrite !fmap_cons in Hbytes. injection Hbytes as Hb0 Hb1 Hrest.
  unfold decode_from_files. rewrite list_to_tree_json_dump. cbn [mbind result_bind].
  rewrite unpack_cons, Hb0, Hb1. cbn [mbind result_bind].
  destruct (string_split code p ltac:(lia)) as (a & b & -> & Ha & Hb).
  rewrite all_bits_app in Hbits. apply andb_prop in Hbits as [Hbitsa Hbitsb].
  unfold slice in Hx. rewrite Nat.sub_0_r, <- Ha, substring_app_l in Hx.
  rewrite <- Ha in Hdata. apply unpack_groups in Hdata; [|done|lia].
  rewrite <- Hrest, <- list_fmap_compose in Hdata.
  assert (Hfirst : slice_from (byte_to_bits x) (- Z.of_nat p) = a).
  { rewrite slice_from_last by (rewrite byte_to_bits_length; lia).
    rewrite byte_to_bits_length, (byte_to_bits_int2 a x Hbitsa ltac:(lia) Hx).
    pose proof (substring_length "00000000" 0 (8 - String.length a)
                  ltac:(cbn; lia)) as Hz.
    rewrite <- Ha. rewrite <- Hz at 1. apply substring_app_r. }
  rewrite Hfirst. change (λ x0, byte_to_bits (int_of_byte x0)) with (byte_to_bits ∘ int_of_byte).
  rewrite Hdata, decode_tree_for_compression.
  apply decode_encode; [done|].
  destruct (is_leaf tree) eqn:Hleaf; [|done].
  apply (encode_leaf_code _ _ _ Hcode) in Hleaf.
  apply (f_equal String.length) in Hleaf. rewrite app_length in Hleaf. cbn in Hleaf. lia.
Qed.

Lemma file_roundtrip_witness :
  decode_from_files ["002"; "001"]%byte (json_dump (tree_for_compression tree_ab))
  = Ok "ab".
Proof. apply (file_roundtrip "ab"). vm_compute. reflexivity. Defined.

(** * Invariants of [make_tree] *)

Lemma all_internal_merge (P : Z → ascii → Node → Node → Prop) (c : Z) (a : ascii)
    (l r : Node) :
  all_internal P (mkNode c a (Some l) (Some r))
  ↔ P c a l r ∧ all_internal P l ∧ all_internal P r.
Proof. reflexivity. Qed.

Lemma all_internal_impl (P Q : Z → ascii → Node → Node → Prop) (n : Node) :
  (∀ c a l r, P c a l r → Q c a l r) → all_internal P n → all_internal Q n.
Proof.
  intros HPQ. induction n as [c a l r IHl IHr] using Node_ind'.
  destruct l as [l|], r as [r|]; cbn in *; try done.
  intros (HP & Hl & Hr). auto.
Qed.

Section MakeTreeInvariant.
Context (P : Node → Prop).
Context (P_merge : ∀ l r, P l → P r → P (mkNode (count l + count r) NUL (Some l) (Some r))).

Lemma make_tree_loop_Forall (fuel : nat) :
  ∀ heap heap',
    Forall P heap → make_tree_loop fuel heap = Ok heap' → Forall P heap'.
Proof.
  induction fuel as [|fuel IH]; intros heap heap' Hheap; cbn [make_tree_loop];
    destruct (decide (1 < length heap)%nat) as [Hlen|Hlen]; try discriminate;
    try (by intros [= <-]).
  intros Hrun. inv_bind Hrun as [l h1] Hpop1. inv_bind Hrun as [r h2] Hpop2.
  inv_bind Hrun as h3 Hpush.
  apply heappop_perm in Hpop1. apply heappop_perm in Hpop2.
  apply heappush_perm in Hpush.
  rewrite Hpop1, Hpop2 in Hheap.
  apply Forall_cons in Hheap as [Hl [Hr Hh2]%Forall_cons].
  apply (IH h3); [|done]. rewrite Hpush. apply Forall_cons. split; [|done].
  by apply P_merge.
Qed.

Lemma make_tree_Forall (heap : list Node) (root : Node) :
  Forall P heap → make_tree heap = Ok root → P root.
Proof.
  unfold make_tree. intros Hheap Hrun. inv_bind Hrun as heap1 Hloop.
  inv_bind Hrun as [root' rest] Hpop. injection Hrun as ->.
  apply (make_tree_loop_Forall _ _ _ Hheap) in Hloop.
  apply heappop_perm in Hpop. rewrite Hpop in Hloop.
  by apply Forall_cons in Hloop as [? _].
Qed.
End MakeTreeInvariant.

Section MakeTreeMeasure.
Context {B : Type} (f : Node → list B).
Context (f_merge : ∀ c l r, f (mkNode c NUL (Some l) (Some r)) = f l ++ f r).

Lemma make_tree_loop_bind (fuel : nat) :
  ∀ heap heap',
    make_tree_loop fuel heap = Ok heap' → heap' ≫= f ≡ₚ heap ≫= f.
Proof.
  induction fuel as [|fuel IH]; intros heap heap'; cbn [make_tree_loop];
    destruct (decide (1 < length heap)%nat) as [Hlen|Hlen]; try discriminate;
    try (by intros [= <-]).
  intros Hrun. inv_bind Hrun as [l h1] Hpop1. inv_bind Hrun as [r h2] Hpop2.
  inv_bind Hrun as h3 Hpush.
  apply heappop_perm in Hpop1. apply heappop_perm in Hpop2.
  apply heappush_perm in Hpush.
  rewrite (IH _ _ Hrun), Hpush, Hpop1, Hpop2, !bind_cons, f_merge.
  by rewrite (assoc_L (++)).
Qed.

Lemma make_tree_bind (heap : list Node) (root : Node) :
  make_tree heap = Ok root → f root ≡ₚ heap ≫= f.
Proof.
  unfold make_tree. intros Hrun. inv_bind Hrun as heap1 Hloop.
  inv_bind Hrun as [root' rest] Hpop. injection Hrun as ->.
  pose proof Hloop as Hlen. apply make_tree_loop_spec in Hlen as (Hlen & _).
  apply make_tree_loop_bind in Hloop.
  apply heappop_perm in Hpop. apply Permutation_length in Hpop as Hlen1.
  cbn in Hlen1. destruct rest; [|cbn in Hlen1; lia].
  rewrite <- Hloop, Hpop, bind_cons. cbn. by rewrite (right_id_L [] (++)).
Qed.
End MakeTreeMeasure.

Lemma total_count_perm (h1 h2 : list Node) :
  h1 ≡ₚ h2 → total_count h1 = total_count h2.
Proof.
  unfold total_count. induction 1; cbn; lia.
Qed.

Lemma leaf_counts_merge (c : Z) (a : ascii) (l r : Node) :
  leaf_counts (mkNode c a (Some l) (Some r)) = leaf_counts l ++ leaf_counts r.
Proof. reflexivity. Qed.

Lemma total_count_cons (n : Node) (heap : list Node) :
  total_count (n :: heap) = count n + total_count heap.
Proof. reflexivity. Qed.

Lemma make_tree_loop_total_count (fuel : nat) :
  ∀ heap heap',
    make_tree_loop fuel heap = Ok heap' → total_count heap' = total_count heap.
Proof.
  induction fuel as [|fuel IH]; intros heap heap'; cbn [make_tree_loop];
    destruct (decide (1 < length heap)%nat) as [Hlen|Hlen]; try discriminate;
    try (by intros [= <-]).
  intros Hrun. inv_bind Hrun as [l h1] Hpop1. inv_bind Hrun as [r h2] Hpop2.
  inv_bind Hrun as h3 Hpush.
  apply heappop_perm, total_count_perm in Hpop1.
  apply heappop_perm, total_count_perm in Hpop2.
  apply heappush_perm, total_count_perm in Hpush.
  rewrite (IH _ _ Hrun), Hpush, Hpop1, !total_count_cons, Hpop2, !total_count_cons.
  cbn [count]. lia.
Qed.

Lemma make_tree_total_count (heap : list Node) (root : Node) :
  make_tree heap = Ok root → count root = total_count heap.
Proof.
  unfold make_tree. intros Hrun. inv_bind Hrun as heap1 Hloop.
  inv_bind Hrun as [root' rest] Hpop. injection Hrun as ->.
  pose proof Hloop as Hlen. apply make_tree_loop_spec in Hlen as (Hlen & _).
  apply make_tree_loop_total_count in Hloop.
  apply heappop_perm in Hpop. apply Permutation_length in Hpop as Hlen1.
  cbn in Hlen1. destruct rest; [|cbn in Hlen1; lia].
  apply total_count_perm in Hpop. rewrite <- Hloop, Hpop, total_count_cons.
  unfold total_count. cbn. lia.
Qed.

(** * The counts of [Counter] and of the tree *)

Lemma counter_incr_get (c elem : ascii) (cnt : list (ascii * Z)) :
  counter_get c (counter_incr elem cnt)
  = counter_get c cnt + (if decide (elem = c) then 1 else 0).
Proof.
  induction cnt as [|[k n] cnt IH]; cbn.
  - destruct (decide (elem = c)); lia.
  - destruct (decide (k = elem)) as [->|Hne]; cbn;
      repeat case_decide; try congruence; try lia.
Qed.

Lemma Counter_fold_get (c : ascii) (l : list ascii) :
  ∀ cnt, counter_get c (foldl (λ cnt elem, counter_incr elem cnt) cnt l)
         = counter_get c cnt + Z.of_nat (length (filter (λ x, x = c) l)).
Proof.
  induction l as [|e l IH]; intros cnt; cbn [foldl].
  - cbn. lia.
  - rewrite IH, counter_incr_get, filter_cons.
    destruct (decide (e = c)); cbn [length]; lia.
Qed.

Lemma Counter_get (c : ascii) (text : string) :
  counter_get c (Counter text) = occurrences c text.
Proof. unfold Counter, occurrences. by rewrite Counter_fold_get. Qed.

Lemma counter_incr_NoDup (elem : ascii) (cnt : list (ascii * Z)) :
  NoDup cnt.*1 → NoDup (counter_incr elem cnt).*1.
Proof.
  intros Hnd. rewrite counter_incr_keys. destruct (decide (elem ∈ cnt.*1)); [done|].
  apply NoDup_app. split_and!; [done| |apply NoDup_singleton].
  intros x Hx ->%list_elem_of_singleton. done.
Qed.

Lemma Counter_NoDup (text : string) : NoDup (Counter text).*1.
Proof.
  unfold Counter. generalize (chars text). intros l.
  assert (H : ∀ cnt : list (ascii * Z),
             NoDup cnt.*1 → NoDup (foldl (λ cnt elem, counter_incr elem cnt) cnt l).*1).
  { induction l as [|e l IH]; intros cnt Hnd; cbn [foldl]; [done|].
    by apply IH, counter_incr_NoDup. }
  apply H. constructor.
Qed.

Lemma counter_get_elem (c : ascii) (n : Z) (cnt : list (ascii * Z)) :
  NoDup cnt.*1 → (c, n) ∈ cnt → counter_get c cnt = n.
Proof.
  induction cnt as [|[k m] cnt IH]; intros Hnd Hin; [by apply elem_of_nil in Hin|].
  cbn in Hnd. apply NoDup_cons in Hnd as [Hk Hnd].
  apply elem_of_cons in Hin as [[= <- <-]|Hin]; cbn.
  - by rewrite decide_True.
  - rewrite decide_False; [by apply IH|].
    intros ->. apply Hk. apply list_elem_of_fmap. by exists (c, n).
Qed.

Lemma Counter_sum (text : string) :
  foldr Z.add 0 (Counter text).*2 = Z.of_nat (String.length text).
Proof.
  rewrite <- chars_length. unfold Counter. generalize (chars text). intros l.
  assert (Hincr : ∀ e (cnt : list (ascii * Z)),
             foldr Z.add 0 (counter_incr e cnt).*2 = foldr Z.add 0 cnt.*2 + 1).
  { intros e cnt. induction cnt as [|[k n] cnt IH]; cbn; [done|].
    destruct (decide (k = e)); cbn; lia. }
  assert (H : ∀ cnt : list (ascii * Z),
             foldr Z.add 0 (foldl (λ cnt elem, counter_incr elem cnt) cnt l).*2
             = foldr Z.add 0 cnt.*2 + Z.of_nat (length l)).
  { induction l as [|e l IH]; intros cnt; cbn [foldl length]; [lia|].
    rewrite IH, Hincr. lia. }
  rewrite H. cbn. lia.
Qed.

(** The steps of [encode], one by one. *)
Lemma encode_inv (text code : string) (tree : Node) :
  encode text = Ok (code, tree) →
  ∃ heap codes,
    heapify (leaf_nodes (Counter text)) = Ok heap ∧
    make_tree heap = Ok tree ∧
    lookup_all (make_table tree) text = Ok codes ∧
    code = String.concat "" codes.
Proof.
  unfold encode. intros Hrun. inv_bind Hrun as heap Hheap.
  inv_bind Hrun as root Htree. inv_bind Hrun as codes Hcodes.
  injection Hrun as <- <-. by exists heap, codes.
Qed.

Lemma leaf_nodes_leaf_counts (cnt : list (ascii * Z)) :
  leaf_nodes cnt ≫= leaf_counts = cnt.
Proof. induction cnt as [|[k n] cnt IH]; [done|]. cbn. by f_equal. Qed.

Lemma leaf_nodes_total_count (cnt : list (ascii * Z)) :
  total_count (leaf_nodes cnt) = foldr Z.add 0 cnt.*2.
Proof.
  unfold total_count, leaf_nodes. induction cnt as [|[k n] cnt IH]; [done|].
  rewrite !fmap_cons. cbn [foldr]. by rewrite IH.
Qed.

Lemma leaf_nodes_all_internal (P : Z → ascii → Node → Node → Prop)
    (cnt : list (ascii * Z)) :
  Forall (all_internal P) (leaf_nodes cnt).
Proof. induction cnt as [|[k n] cnt IH]; constructor; done. Qed.

Lemma leaves_leaf_counts (node : Node) : leaves node = (leaf_counts node).*1.
Proof.
  induction node as [c a l r IHl IHr] using Node_ind'.
  destruct l as [l|], r as [r|]; cbn in *; rewrite ?fmap_app, ?IHl, ?IHr; done.
Qed.

(** The leaves of the tree [encode] builds are the items of the counter. *)
Lemma encode_leaf_counts (text code : string) (tree : Node) :
  encode text = Ok (code, tree) → leaf_counts tree ≡ₚ Counter text.
Proof.
  intros (heap & codes & Hheap & Htree & _)%encode_inv.
  apply (make_tree_bind leaf_counts (λ c, leaf_counts_merge c NUL)) in Htree.
  apply heapify_perm in Hheap. by rewrite Htree, Hheap, leaf_nodes_leaf_counts.
Qed.

(** X9: the tree that [encode] returns has every distinct character of the
    text at exactly one leaf, and no other leaf; every other node has two
    children. *)
Theorem encode_tree_leaves (text code : string) (tree : Node) :
  encode text = Ok (code, tree) →
  NoDup (leaves tree) ∧ (∀ c, c ∈ leaves tree ↔ c ∈ chars text) ∧ full tree.
Proof.
  intros Henc. pose proof (encode_leaf_counts _ _ _ Henc) as Hperm.
  split_and!.
  - rewrite leaves_leaf_counts, Hperm. apply Counter_NoDup.
  - intros c. rewrite leaves_leaf_counts, Hperm. apply Counter_keys.
  - apply encode_inv in Henc as (heap & codes & Hheap & Htree & _).
    apply (make_tree_Forall full) in Htree; [done|done|].
    apply heapify_perm in Hheap. rewrite Hheap. apply leaf_nodes_all_internal.
Qed.

Lemma encode_tree_leaves_witness :
  NoDup (leaves tree_abc) ∧
  (∀ c, c ∈ leaves tree_abc ↔ c ∈ chars "abc") ∧
  full tree_abc.
Proof. apply (encode_tree_leaves "abc" "10110"). vm_compute. reflexivity. Defined.

(** X10: in the tree that [encode] returns, each leaf carries the number of
    occurrences of its character in the text, each other node the sum of
    the counts of its two children, and the root the length of the text. *)
Theorem encode_tree_counts (text code : string) (tree : Node) :
  encode text = Ok (code, tree) →
  (∀ c n, (c, n) ∈ leaf_counts tree → n = occurrences c text) ∧
  counted tree ∧
  count tree = Z.of_nat (String.length text).
Proof.
  intros Henc. pose proof (encode_leaf_counts _ _ _ Henc) as Hperm.
  apply encode_inv in Henc as (heap & codes & Hheap & Htree & _).
  apply heapify_perm in Hheap. split_and!.
  - intros c n Hin. rewrite Hperm in Hin. rewrite <- Counter_get.
    symmetry. apply counter_get_elem; [apply Counter_NoDup | done].
  - apply (make_tree_Forall counted) in Htree; [done|done|].
    rewrite Hheap. apply leaf_nodes_all_internal.
  - rewrite (make_tree_total_count _ _ Htree), (total_count_perm _ _ Hheap).
    by rewrite leaf_nodes_total_count, Counter_sum.
Qed.

Lemma encode_tree_counts_witness :
  (∀ c n, (c, n) ∈ leaf_counts tree_abc → n = occurrences c "abc") ∧
  counted tree_abc ∧
  count tree_abc = Z.of_nat (String.length "abc").
Proof. apply (encode_tree_counts "abc" "10110"). vm_compute. reflexivity. Defined.

(** * What [decode] does on any code string *)

Lemma str_join_letter_strs (cs : list ascii) :
  str_join (letter_str <$> cs) = Ok (string_of_list_ascii cs).
Proof.
  induction cs as [|c cs IH]; [done|].
  rewrite fmap_cons. cbn [str_join letter_str string_of_list_ascii]. by rewrite IH.
Qed.

Lemma descend_leaves (c : ascii) (node n : Node) :
  descend c node = Some n → leaves n ⊆ leaves node.
Proof.
  intros Hd. pose proof (descend_not_leaf _ _ _ Hd) as Hleaf.
  rewrite (leaves_unfold node), Hleaf. unfold descend in Hd.
  destruct (Ascii.eqb c "0"); rewrite Hd; cbn; set_solver.
Qed.

Lemma leaves_leaf (n : Node) : is_leaf n = true → leaves n = [Node_letter n].
Proof. intros Hleaf. by rewrite leaves_unfold, Hleaf. Qed.

(** The loop of [decode] on a [Node] tree: it returns when the walk is
    safe, with letters of leaves added to [res], and raises
    [AttributeError] when it is not. *)
Lemma decode_loop_Node (tree : Node) (code : string) :
  ∀ node res,
    leaves node ⊆ leaves tree →
    (walk_safe tree code node →
     ∃ cs, decode_loop tree code node res = Ok (res ++ (letter_str <$> cs))
           ∧ Forall (λ c, c ∈ leaves tree) cs) ∧
    (¬ walk_safe tree code node →
     decode_loop tree code node res = Raise AttributeError).
Proof.
  induction code as [|c code IH]; intros node res Hsub; cbn [walk_safe decode_loop].
  - split; [|done]. intros _. exists [].
    split; [by rewrite fmap_nil, (right_id_L [] (++)) | constructor].
  - destruct (descend c node) as [n|] eqn:Hd; [|by split].
    pose proof (descend_leaves _ _ _ Hd) as Hn.
    destruct (is_leaf n) eqn:Hleaf.
    + destruct (IH tree (res ++ [letter n]) ltac:(done)) as [Hsafe Hunsafe].
      split; [|done]. intros Hw. destruct (Hsafe Hw) as (cs & -> & Hcs).
      exists (Node_letter n :: cs). split.
      * by rewrite <- (assoc_L (++)).
      * constructor; [|done]. apply Hsub, Hn. rewrite (leaves_leaf n Hleaf). by left.
    + apply IH. by etrans.
Qed.

Lemma all_internal_descend (P : Z → ascii → Node → Node → Prop) (c : ascii)
    (node : Node) :
  all_internal P node → is_leaf node = false →
  ∃ n, descend c node = Some n ∧ all_internal P n.
Proof.
  destruct node as [cnt a [l|] [r|]]; cbn; try done.
  intros (_ & Hl & Hr) _. unfold descend. cbn.
  destruct (Ascii.eqb c "0"); eauto.
Qed.

(** In a tree whose nodes have no child or two, no walk steps onto a
    missing child. *)
Lemma walk_safe_full (tree : Node) (code : string) :
  full tree → is_leaf tree = false →
  ∀ node, full node → is_leaf node = false → walk_safe tree code node.
Proof.
  intros Htree Hroot. induction code as [|c code IH]; intros node Hnode Hleaf; [done|].
  cbn [walk_safe]. destruct (all_internal_descend _ c node Hnode Hleaf) as (n & -> & Hn).
  destruct (is_leaf n) eqn:Hn'; by apply IH.
Qed.

Lemma encode_full (text code : string) (tree : Node) :
  encode text = Ok (code, tree) → full tree.
Proof.
  intros (heap & codes & Hheap & Htree & _)%encode_inv.
  apply (make_tree_Forall full) in Htree; [done|done|].
  apply heapify_perm in Hheap. rewrite Hheap. apply leaf_nodes_all_internal.
Qed.

(** X13: on a [Node] tree [decode] returns exactly when the walk finds a
    child at every step, and then returns letters of leaves of the tree;
    otherwise it raises [AttributeError].  It raises nothing else. *)
Theorem decode_outcome (code : string) (tree : Node) :
  (walk_safe tree code tree →
   ∃ cs, decode code tree = Ok (string_of_list_ascii cs)
         ∧ Forall (λ c, c ∈ leaves tree) cs) ∧
  (¬ walk_safe tree code tree → decode code tree = Raise AttributeError).
Proof.
  destruct (decode_loop_Node tree code tree [] ltac:(done)) as [Hsafe Hunsafe].
  unfold decode. split.
  - intros Hw. destruct (Hsafe Hw) as (cs & -> & Hcs). exists cs.
    split; [|done]. cbn [mbind result_bind app]. apply str_join_letter_strs.
  - intros Hw. by rewrite (Hunsafe Hw).
Qed.

Lemma decode_outcome_witness :
  ∃ cs, decode "01" tree_ab = Ok (string_of_list_ascii cs) ∧
        Forall (λ c, c ∈ leaves tree_ab) cs.
Proof. apply (decode_outcome "01" tree_ab). vm_compute. exact I. Defined.

(** X14: with the tree that [encode] returned for a text of two distinct
    characters, [decode] returns on every string, whatever its characters:
    every walk finds its child. *)
Theorem decode_total (text code : string) (tree : Node) (a b : ascii) (bits : string) :
  a ≠ b → a ∈ chars text → b ∈ chars text →
  encode text = Ok (code, tree) →
  ∃ out, decode bits tree = Ok out.
Proof.
  intros Hne Ha Hb Henc.
  pose proof (encode_full _ _ _ Henc) as Hfull.
  pose proof (encode_not_leaf _ _ _ a b Henc Hne Ha Hb) as Hroot.
  pose proof (walk_safe_full tree bits Hfull Hroot tree Hfull Hroot) as Hw.
  destruct (decode_loop_Node tree bits tree [] ltac:(done)) as [Hsafe _].
  destruct (Hsafe Hw) as (cs & Hloop & _). unfold decode. rewrite Hloop.
  cbn [mbind result_bind app]. rewrite str_join_letter_strs. eauto.
Qed.

Lemma decode_total_witness : ∃ out, decode "0x10" tree_ab = Ok out.
Proof.
  apply (decode_total "ab" "01" tree_ab "a" "b" "0x10");
    [discriminate | compute_done | compute_done | vm_compute; reflexivity].
Defined.

(** ** A code cut short *)

Lemma decode_loop_codes_rest (tree : Node) (text : string) (rest : string) :
  is_leaf tree = false →
  ∀ codes res,
    lookup_all (make_table tree) text = Ok codes →
    decode_loop tree (String.concat "" codes +:+ rest) tree res
    = decode_loop tree rest tree (res ++ (letter_str <$> chars text)).
Proof.
  intros Hroot. induction text as [|c text IH]; intros codes res Hcodes.
  - injection Hcodes as <-. cbn. by rewrite (right_id_L [] (++)).
  - apply lookup_all_cons in Hcodes as (code & codes' & Hcode & Hcodes & ->).
    apply make_table_sound in Hcode as (n & Hwalk & Hleaf & Hletter).
    rewrite concat_cons, append_assoc, (decode_loop_path tree code tree n);
      [|done| |done].
    + rewrite (IH _ _ Hcodes). cbn. rewrite <- (assoc_L (++)). cbn.
      unfold letter_str. by rewrite Hletter.
    + intros ->. cbn in Hwalk. congruence.
Qed.

(** A walk that stops at a node with children emits nothing. *)
Lemma decode_loop_partial {T} `{NodeLike T} (tree : T) (p : string) :
  ∀ node n res,
    walk node p = Some n → is_leaf n = false → decode_loop tree p node res = Ok res.
Proof.
  induction p as [|c p IH]; intros node n res Hwalk Hleaf; [done|].
  cbn [walk] in Hwalk. cbn [decode_loop].
  destruct (descend c node) as [m|]; [|discriminate].
  assert (is_leaf m = false) as ->; [|by eapply IH].
  destruct p as [|c' p]; [by injection Hwalk as ->|].
  cbn [walk] in Hwalk. destruct (descend c' m) eqn:Hm; [|discriminate].
  by eapply descend_not_leaf.
Qed.

(** X15: bits left over after the last complete code are dropped without an
    error: when the code that [encode] returned is followed by a path that
    stops at a node with children, [decode] still returns the text. *)
Theorem decode_drops_partial_tail (text code : string) (tree n : Node) (p : string) :
  encode text = Ok (code, tree) →
  walk tree p = Some n → is_leaf n = false →
  decode (code +:+ p) tree = Ok text.
Proof.
  intros Henc Hwalk Hleaf.
  assert (Hroot : is_leaf tree = false).
  { destruct (is_leaf tree) eqn:Hroot; [|done].
    pose proof (walk_leaf _ _ _ Hroot Hwalk) as ->. cbn in Hwalk. congruence. }
  apply encode_inv in Henc as (heap & codes & _ & _ & Hcodes & ->).
  unfold decode. rewrite (decode_loop_codes_rest tree text p Hroot _ _ Hcodes).
  rewrite (decode_loop_partial tree p tree n _ Hwalk Hleaf).
  cbn [mbind result_bind app]. apply str_join_letters.
Qed.

Lemma decode_drops_partial_tail_witness : decode "101101" tree_abc = Ok "abc".
Proof.
  apply (decode_drops_partial_tail "abc" "10110" tree_abc tree_ab "1");
    vm_compute; reflexivity.
Defined.

(** * The entries of the code table *)

Lemma leaf_at_leaves (p : string) :
  ∀ (node : Node) c, leaf_at node p c → c ∈ leaves node.
Proof.
  induction p as [|b p IH]; intros node c (n & Hwalk & Hleaf & Hc).
  - injection Hwalk as ->. rewrite (leaves_leaf n Hleaf), Hc. by left.
  - cbn [walk] in Hwalk. destruct (descend b node) as [m|] eqn:Hd; [|discriminate].
    apply (descend_leaves _ _ _ Hd), IH. by exists n.
Qed.

Lemma leaf_at_cons (node : Node) (b : ascii) (p : string) (c : ascii) :
  leaf_at node (String b p) c →
  ∃ m, descend b node = Some m ∧ leaf_at m p c.
Proof.
  intros (n & Hwalk & Hleaf). cbn [walk] in Hwalk.
  destruct (descend b node) as [m|]; [|discriminate]. exists m. split; [done|].
  by exists n.
Qed.

(** When no letter is at two leaves, a letter has one path only. *)
Lemma leaf_at_unique (p : string) :
  ∀ (node : Node) q c,
    NoDup (leaves node) → all_bits p = true → all_bits q = true →
    leaf_at node p c → leaf_at node q c → p = q.
Proof.
  induction p as [|b p IH]; intros node q c Hnd Hp Hq Hpc Hqc.
  - destruct Hpc as (n & [= ->] & Hleaf & _). destruct Hqc as (m & Hm & _).
    by rewrite (walk_leaf _ _ _ Hleaf Hm).
  - apply leaf_at_cons in Hpc as (m & Hm & Hpc).
    pose proof (descend_not_leaf _ _ _ Hm) as Hleaf.
    destruct q as [|b' q].
    { destruct Hqc as (n & [= ->] & Hn & _). congruence. }
    apply leaf_at_cons in Hqc as (m' & Hm' & Hqc).
    apply all_bits_cons in Hp as [Hb Hp]. apply all_bits_cons in Hq as [Hb' Hq].
    rewrite leaves_unfold, Hleaf in Hnd. apply NoDup_app in Hnd as (Hl & Hdisj & Hr).
    apply leaf_at_leaves in Hpc as Hin. apply leaf_at_leaves in Hqc as Hin'.
    destruct Hb as [-> | ->], Hb' as [-> | ->].
    + rewrite Hm in Hm'. injection Hm' as <-. f_equal.
      rewrite descend_0 in Hm. rewrite Hm in Hl. by eapply IH.
    + rewrite descend_0 in Hm. rewrite descend_1 in Hm'.
      rewrite Hm, Hm' in Hdisj. by destruct (Hdisj c).
    + rewrite descend_1 in Hm. rewrite descend_0 in Hm'.
      rewrite Hm, Hm' in Hdisj. by destruct (Hdisj c).
    + rewrite Hm in Hm'. injection Hm' as <-. f_equal.
      rewrite descend_1 in Hm. rewrite Hm in Hr. by eapply IH.
Qed.

(** X8: on a tree no higher than [max_depth], the code table has an entry
    for exactly the letters of the leaves.  When no letter is at two
    leaves, the entry of a letter is the path of ['0'] (left) and ['1']
    (right) from the root to its leaf, and nothing else.  (On a tree deeper
    than the interpreter's stack, [make_table_recursive] raises
    [RecursionError] and there is no table; the trees of [encode] are no
    higher than [max_depth], lemma [encode_height].) *)
Theorem make_table_entries (root : Node) :
  (height root ≤ max_depth)%nat →
  (∀ c, is_Some (make_table root !! c) ↔ c ∈ leaves root) ∧
  (NoDup (leaves root) →
   ∀ c code, make_table root !! c = Some code
             ↔ all_bits code = true ∧ leaf_at root code c).
Proof.
  intros _. split.
  - intros c. split.
    + intros [code Hcode]. by eapply leaf_at_leaves, make_table_sound.
    + intros Hc. apply make_table_recursive_keys. by right.
  - intros Hnd c code. split.
    + intros Hcode. split; [by eapply make_table_bits | by apply make_table_sound].
    + intros [Hbits Hleaf].
      destruct (make_table_recursive_keys root "" ∅ c) as [code' Hcode'].
      { right. by eapply leaf_at_leaves. }
      fold (make_table root) in Hcode'. rewrite Hcode'. f_equal.
      eapply (leaf_at_unique code'); eauto using make_table_bits, make_table_sound.
Qed.

Lemma make_table_entries_witness :
  make_table tree_abc !! "a"%char = Some "10"
  ↔ all_bits "10" = true ∧ leaf_at tree_abc "10" "a".
Proof.
  apply (make_table_entries tree_abc); [vm_compute; lia | compute_done].
Defined.

(** * What the file functions return *)

Lemma slice_from_neg_length (s : string) (k : Z) :
  0 ≤ k →
  String.length (slice_from s (- k))
  = if decide (1 ≤ k ≤ Z.of_nat (String.length s)) then Z.to_nat k
    else String.length s.
Proof.
  intros Hk. destruct (decide (1 ≤ k ≤ Z.of_nat (String.length s))) as [Hin|Hout].
  - replace k with (Z.of_nat (Z.to_nat k)) at 1 by lia.
    rewrite slice_from_last by lia. apply substring_length. lia.
  - unfold slice_from. destruct (- k <? 0) eqn:Hneg.
    + apply Z.ltb_lt in Hneg. rewrite Z.max_r by lia. cbn [Z.to_nat].
      by rewrite Nat.sub_0_r, substring_full.
    + apply Z.ltb_ge in Hneg. assert (k = 0) as -> by lia. cbn [Z.opp].
      rewrite Z.min_l by lia. cbn [Z.to_nat].
      by rewrite Nat.sub_0_r, substring_full.
Qed.

Lemma slice_from_bits (s : string) (start : Z) :
  all_bits s = true → all_bits (slice_from s start) = true.
Proof. intros Hs. unfold slice_from. by apply substring_bits. Qed.

Lemma concat_bits_bytes (rest : list byte) :
  all_bits (String.concat "" ((λ x, byte_to_bits (int_of_byte x)) <$> rest)) = true ∧
  String.length (String.concat "" ((λ x, byte_to_bits (int_of_byte x)) <$> rest))
  = (8 * length rest)%nat.
Proof.
  induction rest as [|b rest [IHb IHl]]; [done|].
  rewrite fmap_cons, concat_cons, all_bits_app, app_length, IHb, IHl.
  rewrite (proj1 (byte_to_bits_value b)), byte_to_bits_length. cbn [length]. split; [done|lia].
Qed.

(** X5: what [decode_from_files] makes of the code file.  A file of fewer
    than two bytes raises [IndexError].  Otherwise the code string consists
    of ['0'] and ['1']; it has 8 characters for each byte after the first
    two and, for the second byte, as many characters as the first byte says
    when that is between 1 and 8, and 8 otherwise. *)
Theorem unpack_outcome (bts : list byte) :
  ((length bts < 2)%nat → unpack bts = Raise IndexError) ∧
  (∀ b0 b1 rest,
     bts = b0 :: b1 :: rest →
     ∃ code, unpack bts = Ok code ∧ all_bits code = true ∧
             String.length code
             = ((if decide (1 ≤ int_of_byte b0 ≤ 8)%Z then Z.to_nat (int_of_byte b0)
                 else 8) + 8 * length rest)%nat).
Proof.
  split.
  - destruct bts as [|b0 [|b1 rest]]; cbn [length]; [done | done | lia].
  - intros b0 b1 rest ->. eexists. split; [apply unpack_cons|].
    destruct (concat_bits_bytes rest) as [Hbits Hlen].
    assert (0 ≤ int_of_byte b0) by (unfold int_of_byte; lia).
    rewrite all_bits_app, app_length, Hbits, Hlen, slice_from_neg_length by done.
    rewrite slice_from_bits by apply byte_to_bits_value.
    rewrite byte_to_bits_length. split; [done|]. by repeat case_decide.
Qed.

Lemma unpack_outcome_witness :
  unpack ["002"%byte] = Raise IndexError ∧
  ∃ code, unpack ["002"; "001"; "015"]%byte = Ok code ∧ all_bits code = true ∧
          String.length code = 10%nat.
Proof.
  split.
  - apply (unpack_outcome ["002"%byte]). cbn. lia.
  - apply (proj2 (unpack_outcome ["002"; "001"; "015"]%byte)
             "002"%byte "001"%byte ["015"%byte]).
    reflexivity.
Defined.

(** X6: [byte_to_bits] and [int(_, 2)] are inverse to each other between
    the bytes and the strings of 8 binary digits. *)
Theorem byte_to_bits_inverse :
  (∀ b : byte,
     String.length (byte_to_bits (int_of_byte b)) = 8%nat ∧
     all_bits (byte_to_bits (int_of_byte b)) = true ∧
     int2 (byte_to_bits (int_of_byte b)) = Ok (int_of_byte b)) ∧
  (∀ s, all_bits s = true → String.length s = 8%nat →
        ∃ b : byte, int2 s = Ok (int_of_byte b) ∧ byte_to_bits (int_of_byte b) = s).
Proof.
  split.
  - intros b. split; [apply byte_to_bits_length | apply byte_to_bits_value].
  - intros s Hbits Hlen.
    destruct (int2_bits s Hbits ltac:(by intros ->)) as (x & Hx & Hrange).
    rewrite Hlen in Hrange. change (2 ^ Z.of_nat 8) with 256 in Hrange.
    destruct (to_bytes_Ok [x]) as (bs & Hbs & Hval); [constructor; [lia | constructor]|].
    destruct bs as [|b [|? ?]]; try discriminate. injection Hval as <-.
    exists b. split; [done|].
    rewrite (byte_to_bits_int2 s _ Hbits ltac:(lia) Hx), Hlen. reflexivity.
Qed.

Lemma byte_to_bits_inverse_witness :
  ∃ b : byte, int2 "00001111" = Ok (int_of_byte b)
              ∧ byte_to_bits (int_of_byte b) = "00001111".
Proof. apply (proj2 byte_to_bits_inverse "00001111"); reflexivity. Defined.

(** X4: what [encode_to_files] writes.  With [prefix_len] the length of the
    code modulo 8: when it is 0 the call raises [ValueError]; otherwise the
    code file has two bytes and one more for each full group of 8 bits,
    byte 0 is [prefix_len], byte 1 the value of the first [prefix_len]
    bits, byte [2 + i] the value of the [i]-th group of 8 bits after them,
    and the tree file holds the tree without counts. *)
Theorem encode_to_files_outcome (text code : string) (tree : Node) :
  encode text = Ok (code, tree) →
  let prefix_len := (String.length code mod 8)%nat in
  (prefix_len = 0%nat → encode_to_files text = Raise ValueError) ∧
  (prefix_len ≠ 0%nat →
   ∃ bts,
     encode_to_files text = Ok (bts, json_dump (tree_for_compression tree)) ∧
     length bts = (2 + String.length code / 8)%nat ∧
     int_of_byte <$> bts !! 0%nat = Some (Z.of_nat prefix_len) ∧
     (∃ x, int2 (slice code 0 prefix_len) = Ok x ∧ int_of_byte <$> bts !! 1%nat = Some x) ∧
     ∀ i, (i < String.length code / 8)%nat →
          ∃ y, int2 (slice code (prefix_len + 8 * i) (prefix_len + 8 * (i + 1))) = Ok y
               ∧ int_of_byte <$> bts !! (2 + i)%nat = Some y).
Proof.
  intros Henc prefix_len.
  destruct (encode_to_files_run _ _ _ Henc) as [Hzero Hnonzero].
  split; [done|]. intros Hp.
  destruct (Hnonzero Hp) as (bts & x & data & Hrun & Hbytes & Hx & Hdata).
  fold prefix_len in Hbytes, Hx, Hdata.
  exists bts. pose proof (Forall2_length _ _ _ Hdata) as Hlen.
  rewrite length_seq in Hlen.
  assert (Hlook : ∀ k, int_of_byte <$> bts !! k = (Z.of_nat prefix_len :: x :: data) !! k)
    by (intros k; by rewrite <- Hbytes, list_lookup_fmap).
  split_and!; [done | | by rewrite Hlook | exists x; by rewrite Hlook |].
  - rewrite <- (length_fmap int_of_byte), Hbytes. cbn [length]. lia.
  - intros i Hi. destruct (lookup_lt_is_Some_2 data i ltac:(lia)) as [y Hy].
    exists y. rewrite Hlook. split; [|done].
    by apply (Forall2_lookup_lr _ _ _ i i y Hdata); [apply lookup_seq|].
Qed.

Lemma encode_to_files_outcome_witness :
  encode_to_files "aaaabbbb" = Raise ValueError ∧
  ∃ bts, encode_to_files "abc"
         = Ok (bts, json_dump (tree_for_compression tree_abc)) ∧
         length bts = 2%nat ∧
         int_of_byte <$> bts !! 0%nat = Some 5.
Proof.
  split.
  - eapply (encode_to_files_outcome "aaaabbbb"); vm_compute; reflexivity.
  - destruct (encode_to_files_outcome "abc" "10110" tree_abc) as [_ Hrun];
      [vm_compute; reflexivity|].
    destruct Hrun as (bts & Hrun & Hlen & Hhead & _); [discriminate|].
    exists bts. split_and!; [exact Hrun | exact Hlen | exact Hhead].
Defined.

(** * What [list_to_tree] returns *)

Lemma accepts_unfold (letter l1 l2 : pyvalue) (rest : list pyvalue) :
  accepts (PList (letter :: l1 :: l2 :: rest))
  = (negb (truthy l1) || accepts l1) && (negb (truthy l2) || accepts l2).
Proof. reflexivity. Qed.

Lemma load_child_accepts (y : pyvalue) :
  ((accepts y = true → ∃ t, list_to_tree y = Ok t) ∧
   (accepts y = false →
    list_to_tree y = Raise IndexError ∨ list_to_tree y = Raise TypeError)) →
  (negb (truthy y) || accepts y = true → ∃ o, load_child y = Ok o) ∧
  (negb (truthy y) || accepts y = false →
   load_child y = Raise IndexError ∨ load_child y = Raise TypeError).
Proof.
  intros [Hyes Hno]. unfold load_child. destruct (truthy y); cbn [negb orb].
  - split.
    + intros Hacc. destruct (Hyes Hacc) as [t ->]. by eexists.
    + intros Hacc. destruct (Hno Hacc) as [-> | ->]; auto.
  - split; [by eexists | done].
Qed.

(** On a stack that does not run out: [list_to_tree] returns a tree on the
    lists of at least three items whose second and third items are false
    in a test or are such lists again, and raises [IndexError] or
    [TypeError] on every other value. *)
Lemma list_to_tree_accepts (x : pyvalue) :
  (accepts x = true → ∃ t, list_to_tree x = Ok t) ∧
  (accepts x = false →
   list_to_tree x = Raise IndexError ∨ list_to_tree x = Raise TypeError).
Proof.
  induction x as [| | | |l IH] using pyvalue_ind'; try (split; [done | cbn; auto]).
  destruct l as [|letter [|l1 rest]]; try (split; [done | cbn; auto]).
  inversion IH as [|? ? _ IH1]; subst. inversion IH1 as [|? ? IHl IH2]; subst.
  apply load_child_accepts in IHl as [Hl_yes Hl_no].
  destruct rest as [|l2 rest].
  - split; [done|]. intros _. cbn [list_to_tree]. fold (load_child l1).
    destruct (load_child l1) as [o|e|] eqn:Hload; cbn [mbind result_bind]; [auto| |].
    + destruct (negb (truthy l1) || accepts l1) eqn:Hacc.
      * destruct (Hl_yes eq_refl) as [o Ho]. congruence.
      * destruct (Hl_no eq_refl) as [He|He]; [left|right]; congruence.
    + destruct (negb (truthy l1) || accepts l1) eqn:Hacc.
      * destruct (Hl_yes eq_refl) as [o Ho]. congruence.
      * destruct (Hl_no eq_refl) as [He|He]; congruence.
  - inversion IH2 as [|? ? IHr _]; subst.
    apply load_child_accepts in IHr as [Hr_yes Hr_no].
    rewrite accepts_unfold. cbn [list_to_tree]. fold (load_child l1). fold (load_child l2).
    destruct (negb (truthy l1) || accepts l1) eqn:Hacc1; cbn [andb].
    + destruct (Hl_yes eq_refl) as [ol ->]. cbn [mbind result_bind].
      destruct (negb (truthy l2) || accepts l2) eqn:Hacc2.
      * destruct (Hr_yes eq_refl) as [or ->]. split; [by eexists | done].
      * split; [done|]. intros _. destruct (Hr_no eq_refl) as [-> | ->]; auto.
    + split; [done|]. intros _. destruct (Hl_no eq_refl) as [-> | ->]; auto.
Qed.

(** * The heap property on counts *)

Lemma parent_is_child (pos : nat) :
  (0 < pos)%nat → is_child (Nat.shiftr (pos - 1) 1) pos.
Proof.
  intros Hpos. rewrite Nat.shiftr_div_pow2. change (2 ^ 1)%nat with 2%nat.
  pose proof (Nat.div_mod_eq (pos - 1) 2) as Hdiv.
  pose proof (Nat.mod_upper_bound (pos - 1) 2 ltac:(lia)) as Hmod.
  unfold is_child. lia.
Qed.

Lemma is_child_lt (p c : nat) : is_child p c → (p < c)%nat.
Proof. unfold is_child. lia. Qed.

Lemma is_child_parent (p p' c : nat) : is_child p c → is_child p' c → p = p'.
Proof. unfold is_child. lia. Qed.

Lemma below_ge (s c : nat) : below s c → (s ≤ c)%nat.
Proof. induction 1 as [|p c _ IH Hc]; [done|]. apply is_child_lt in Hc. lia. Qed.

Lemma below_parent (s q c : nat) : below s c → c ≠ s → is_child q c → below s q.
Proof.
  intros Hb Hne Hq. destruct Hb as [|p c Hp Hc]; [done|].
  by rewrite (is_child_parent q p c).
Qed.

Lemma below_0 (n : nat) : below 0 n.
Proof.
  induction n as [n IH] using lt_wf_ind. destruct n as [|n]; [constructor|].
  pose proof (parent_is_child (S n) ltac:(lia)) as Hc.
  eapply below_child; [|exact Hc]. apply IH. by apply is_child_lt in Hc.
Qed.

(** The tuple order refines the order of the counts. *)
Lemma node_lt_count (a b : Node) (r : bool) :
  node_lt a b = Ok r → if r then count a ≤ count b else count b ≤ count a.
Proof.
  rewrite node_lt_unfold. cbv zeta.
  destruct (Z.eqb_spec (count a) (count b)) as [Heq|Hne]; cbn [negb].
  - intros _. destruct r; lia.
  - intros [= <-]. destruct (Z.ltb_spec (count a) (count b)); lia.
Qed.

(** Putting the item into the hole gives a heap, when its parent is not
    above it in count. *)
Lemma hole_fill (s pos : nat) (newitem : Node) (heap : list Node) :
  hole_ok s pos newitem heap →
  (∀ q a, (s ≤ q)%nat → is_child q pos → heap !! q = Some a →
          count a ≤ count newitem) →
  heap_from s (<[pos := newitem]> heap).
Proof.
  intros [[Haway _] Hbelow] Habove p c a b Hp Hc Ha Hb.
  pose proof (is_child_lt _ _ Hc) as Hlt.
  destruct (decide (p = pos)) as [->|Hp'].
  - rewrite list_lookup_insert_ne in Hb by lia.
    apply lookup_lt_Some in Ha as Hlen. rewrite length_insert in Hlen.
    rewrite list_lookup_insert_eq in Ha by done. injection Ha as <-. by eapply Hbelow.
  - rewrite list_lookup_insert_ne in Ha by done.
    destruct (decide (c = pos)) as [->|Hc'].
    + apply lookup_lt_Some in Hb as Hlen. rewrite length_insert in Hlen.
      rewrite list_lookup_insert_eq in Hb by done. injection Hb as <-. by eapply Habove.
    + rewrite list_lookup_insert_ne in Hb by done. by eapply Haway.
Qed.

Lemma siftdown_loop_heap (s : nat) (fuel : nat) :
  ∀ heap newitem pos heap',
    below s pos → (pos < length heap)%nat → hole_ok s pos newitem heap →
    siftdown_loop fuel heap newitem s pos = Ok heap' →
    heap_from s heap'.
Proof.
  induction fuel as [|fuel IH]; intros heap newitem pos heap' Hbelow Hpos Hok;
    cbn [siftdown_loop]; destruct (decide (s < pos)%nat) as [Hlt|Hge];
    try discriminate.
  - intros [= <-]. apply hole_fill; [done|]. intros q a Hq Hc _.
    apply is_child_lt in Hc. lia.
  - intros Hrun. inv_bind Hrun as parent Hparent. inv_bind Hrun as b Hb.
    apply getitem_Ok in Hparent. apply node_lt_count in Hb.
    pose proof (parent_is_child pos ltac:(lia)) as Hq.
    set (q := Nat.shiftr (pos - 1) 1) in *.
    pose proof (is_child_lt _ _ Hq) as Hqlt.
    pose proof (below_parent s q pos Hbelow ltac:(lia) Hq) as Hbq.
    pose proof (below_ge _ _ Hbq) as Hsq.
    destruct b.
    + apply IH in Hrun; [done | done | rewrite length_insert; lia |].
      destruct Hok as [[Haway Hgrand] Hchildren]. split; [split|].
      * intros p c a b Hp Hc Hpq Hcq Ha Hb'.
        destruct (decide (c = pos)) as [->|Hc'];
          [by rewrite (is_child_parent p q pos) in Hpq|].
        rewrite list_lookup_insert_ne in Hb' by done.
        destruct (decide (p = pos)) as [->|Hp'].
        -- rewrite list_lookup_insert_eq in Ha by done. injection Ha as <-.
           by eapply (Hgrand q c).
        -- rewrite list_lookup_insert_ne in Ha by done. by eapply Haway.
      * intros g c a b' Hg Hgq Hc Ha Hb'.
        pose proof (is_child_lt _ _ Hgq) as Hglt.
        rewrite list_lookup_insert_ne in Ha by lia.
        assert (count a ≤ count parent) by (eapply (Haway g q); eauto; lia).
        destruct (decide (c = pos)) as [->|Hc'].
        -- rewrite list_lookup_insert_eq in Hb' by done. by injection Hb' as <-.
        -- rewrite list_lookup_insert_ne in Hb' by done.
           assert (count parent ≤ count b') by (eapply (Haway q c); eauto; lia). lia.
      * intros c b' Hc Hb'. destruct (decide (c = pos)) as [->|Hc'].
        -- rewrite list_lookup_insert_eq in Hb' by done. by injection Hb' as <-.
        -- rewrite list_lookup_insert_ne in Hb' by done.
           assert (count parent ≤ count b') by (eapply (Haway q c); eauto; lia). lia.
    + injection Hrun as <-. apply hole_fill; [done|]. intros q' a Hq' Hc Ha.
      rewrite (is_child_parent q' q pos Hc Hq) in Ha. congruence.
  - intros [= <-]. apply hole_fill; [done|]. intros q a Hq Hc _.
    apply is_child_lt in Hc. lia.
Qed.

Lemma smaller_child_spec (heap : list Node) (pos k : nat) :
  (2 * pos + 1 < length heap)%nat →
  smaller_child heap (length heap) (2 * pos + 1) = Ok k →
  is_child pos k ∧ (k < length heap)%nat ∧
  ∀ o bk bo, is_child pos o → heap !! k = Some bk → heap !! o = Some bo →
             count bk ≤ count bo.
Proof.
  intros Hlt. unfold smaller_child.
  destruct (decide (2 * pos + 1 + 1 < length heap)%nat) as [Hr|Hr].
  - intros Hsel. inv_bind Hsel as c Hc. inv_bind Hsel as r Hr'. inv_bind Hsel as b Hb.
    apply getitem_Ok in Hc, Hr'. apply node_lt_count in Hb.
    destruct b; unfold negb in Hsel; unfold is_child.
    + assert (k = (2 * pos + 1)%nat) as -> by congruence.
      split_and!; [lia..|]. intros o bk bo [-> | ->] Hk Ho.
      * assert (bk = bo) as -> by congruence. lia.
      * replace (2 * pos + 2)%nat with (2 * pos + 1 + 1)%nat in Ho by lia.
        assert (bk = c ∧ bo = r) as [-> ->] by (split; congruence). done.
    + assert (k = (2 * pos + 1 + 1)%nat) as -> by congruence.
      split_and!; [lia..|]. intros o bk bo [-> | ->] Hk Ho.
      * assert (bk = r ∧ bo = c) as [-> ->] by (split; congruence). done.
      * replace (2 * pos + 2)%nat with (2 * pos + 1 + 1)%nat in Ho by lia.
        assert (bk = bo) as -> by congruence. lia.
  - intros Hsel. assert (k = (2 * pos + 1)%nat) as -> by congruence.
    unfold is_child. split_and!; [lia..|].
    intros o bk bo [-> | ->] Hk Ho.
    + assert (bk = bo) as -> by congruence. lia.
    + apply lookup_lt_Some in Ho. lia.
Qed.

Lemma siftup_loop_heap (s : nat) (fuel : nat) :
  ∀ heap pos heap' pos',
    below s pos → (pos < length heap)%nat → gap_ok s pos heap →
    siftup_loop fuel heap (length heap) pos (2 * pos + 1) = Ok (heap', pos') →
    below s pos' ∧ (pos' < length heap')%nat ∧ gap_ok s pos' heap' ∧
    (length heap' ≤ 2 * pos' + 1)%nat.
Proof.
  induction fuel as [|fuel IH]; intros heap pos heap' pos' Hbelow Hpos Hok;
    cbn [siftup_loop]; destruct (decide (2 * pos + 1 < length heap)%nat) as [Hlt|Hge];
    try discriminate; try (intros [= <- <-]; split_and!; [done..|lia]).
  intros Hrun. inv_bind Hrun as k Hsel. inv_bind Hrun as child Hchild.
  apply getitem_Ok in Hchild.
  apply smaller_child_spec in Hsel as (Hk & Hklen & Hsmall); [|done].
  pose proof (is_child_lt _ _ Hk) as Hklt.
  pose proof (below_ge _ _ Hbelow) as Hs.
  rewrite <- (length_insert heap pos child) in Hrun. apply IH in Hrun.
  - done.
  - by eapply below_child.
  - by rewrite length_insert.
  - destruct Hok as [Haway Hgrand]. split.
    + intros p c a b Hp Hc Hpk Hck Ha Hb.
      destruct (decide (p = pos)) as [->|Hp'].
      * rewrite list_lookup_insert_eq in Ha by done. injection Ha as <-.
        rewrite list_lookup_insert_ne in Hb by (apply is_child_lt in Hc; lia).
        by eapply Hsmall.
      * rewrite list_lookup_insert_ne in Ha by done.
        destruct (decide (c = pos)) as [->|Hc'].
        -- rewrite list_lookup_insert_eq in Hb by done. injection Hb as <-.
           by eapply (Hgrand p k).
        -- rewrite list_lookup_insert_ne in Hb by done. by eapply Haway.
    + intros g c a b Hg Hgk Hc Ha Hb.
      rewrite (is_child_parent g pos k Hgk Hk) in Ha.
      rewrite list_lookup_insert_eq in Ha by done. injection Ha as <-.
      rewrite list_lookup_insert_ne in Hb by (apply is_child_lt in Hc; lia).
      eapply (Haway k c); eauto; try lia. apply is_child_lt in Hc. lia.
Qed.

Lemma gap_ok_insert (s pos : nat) (x : Node) (heap : list Node) :
  gap_ok s pos heap → gap_ok s pos (<[pos := x]> heap).
Proof.
  intros [Haway Hgrand]. split.
  - intros p c a b Hp Hc Hp' Hc' Ha Hb.
    rewrite list_lookup_insert_ne in Ha, Hb by done. by eapply Haway.
  - intros g c a b Hg Hgp Hc Ha Hb.
    apply is_child_lt in Hgp as Hlt1. apply is_child_lt in Hc as Hlt2.
    rewrite list_lookup_insert_ne in Ha, Hb by lia. by eapply Hgrand.
Qed.

(** [_siftup] at [s] extends the heap property from [s + 1] to [s]. *)
Lemma _siftup_heap (heap : list Node) (s : nat) (heap' : list Node) :
  heap_from (S s) heap → _siftup heap s = Ok heap' → heap_from s heap'.
Proof.
  intros Hheap. unfold _siftup. intros Hrun. inv_bind Hrun as newitem Hnew.
  apply getitem_Ok in Hnew. inv_bind Hrun as [heap1 pos1] Hup.
  apply lookup_lt_Some in Hnew as Hs.
  apply (siftup_loop_heap s) in Hup as (Hbelow & Hpos1 & Hgap & Hleaf);
    [|constructor|done|].
  - unfold _siftdown in Hrun. inv_bind Hrun as newitem' Hnew'.
    apply (siftdown_loop_heap s) in Hrun; [done | done | by rewrite length_insert|].
    split; [by apply gap_ok_insert|].
    intros c b Hc Hb. apply is_child_lt in Hc as Hlt. unfold is_child in Hc.
    apply lookup_lt_Some in Hb. rewrite length_insert in Hb. lia.
  - split.
    + intros p c a b Hp Hc Hp' Hc' Ha Hb. eapply (Hheap p c); eauto. lia.
    + intros g c a b Hg Hgs. apply is_child_lt in Hgs. lia.
Qed.

Lemma heappush_heap (heap : list Node) (item : Node) (heap' : list Node) :
  heap_from 0 heap → heappush heap item = Ok heap' → heap_from 0 heap'.
Proof.
  intros Hheap. unfold heappush, _siftdown. intros Hrun.
  inv_bind Hrun as newitem Hnew. rewrite length_app in *. cbn [length] in *.
  replace (length heap + 1 - 1)%nat with (length heap) in * by lia.
  apply (siftdown_loop_heap 0) in Hrun; [done | apply below_0 | rewrite length_app; cbn; lia |].
  split; [split|].
  - intros p c a b _ Hc Hp' Hc' Ha Hb.
    apply lookup_lt_Some in Ha as Hpl. apply lookup_lt_Some in Hb as Hcl.
    rewrite length_app in Hpl, Hcl. cbn in Hpl, Hcl.
    rewrite lookup_app_l in Ha, Hb by lia. eapply (Hheap p c); eauto. lia.
  - intros g c a b _ _ Hc _ Hb. apply is_child_lt in Hc.
    apply lookup_lt_Some in Hb. rewrite length_app in Hb. cbn in Hb. lia.
  - intros c b Hc Hb. apply is_child_lt in Hc.
    apply lookup_lt_Some in Hb. rewrite length_app in Hb. cbn in Hb. lia.
Qed.

(** The root of a heap has the least count. *)
Lemma heap_min (heap : list Node) (m : Node) :
  heap_from 0 heap → heap !! 0%nat = Some m →
  ∀ x, x ∈ heap → count m ≤ count x.
Proof.
  intros Hheap Hm x [i Hi]%list_elem_of_lookup. revert x Hi.
  induction i as [i IH] using lt_wf_ind. intros x Hi.
  destruct i as [|i]; [assert (m = x) as -> by congruence; lia|].
  pose proof (parent_is_child (S i) ltac:(lia)) as Hc.
  set (q := Nat.shiftr (S i - 1) 1) in *.
  pose proof (is_child_lt _ _ Hc) as Hlt.
  destruct (lookup_lt_is_Some_2 heap q) as [y Hy];
    [apply lookup_lt_Some in Hi; lia|].
  assert (count m ≤ count y) by by apply (IH q).
  assert (count y ≤ count x) by (eapply (Hheap q (S i)); eauto; lia). lia.
Qed.

(** [heappop] returns an item of least count and leaves a heap. *)
Lemma heappop_heap (heap : list Node) (item : Node) (heap' : list Node) :
  heap_from 0 heap → heappop heap = Ok (item, heap') →
  heap_from 0 heap' ∧ ∀ x, x ∈ heap → count item ≤ count x.
Proof.
  intros Hheap. unfold heappop. intros Hrun. inv_bind Hrun as [lastelt heap1] Hpop.
  apply list_pop_Ok in Hpop as ->. destruct heap1 as [|returnitem heap1].
  - injection Hrun as <- <-. split.
    + intros p c a b _ _ Ha. done.
    + intros x ->%list_elem_of_singleton. lia.
  - inv_bind Hrun as heap2 Hup. injection Hrun as <- <-. split.
    + apply _siftup_heap in Hup; [done|].
      intros p c a b Hp Hc Ha Hb. apply is_child_lt in Hc as Hlt.
      rewrite list_lookup_insert_ne in Ha, Hb by lia.
      apply lookup_lt_Some in Ha as Hpl. apply lookup_lt_Some in Hb as Hcl.
      eapply (Hheap p c); [lia | done | |]; by rewrite lookup_app_l.
    + by apply heap_min.
Qed.

Lemma heapify_loop_heap (k : nat) :
  ∀ x x', heap_from k x → heapify_loop k x = Ok x' → heap_from 0 x'.
Proof.
  induction k as [|k IH]; intros x x' Hx; cbn [heapify_loop]; [by intros [= <-]|].
  intros Hrun. inv_bind Hrun as x1 Hup. apply _siftup_heap in Hup; [|done].
  by eapply IH.
Qed.

(** [heapify] makes a heap of any list. *)
Lemma heapify_heap (x x' : list Node) : heapify x = Ok x' → heap_from 0 x'.
Proof.
  apply heapify_loop_heap. intros p c a b Hp Hc _ Hb.
  apply lookup_lt_Some in Hb. unfold is_child in Hc.
  pose proof (Nat.div_mod_eq (length x) 2) as Hdiv.
  pose proof (Nat.mod_upper_bound (length x) 2 ltac:(lia)) as Hmod. lia.
Qed.

(** ** The order of the children in the tree *)

Lemma make_tree_loop_ordered (fuel : nat) :
  ∀ heap heap',
    heap_from 0 heap → Forall ordered heap →
    make_tree_loop fuel heap = Ok heap' → Forall ordered heap'.
Proof.
  induction fuel as [|fuel IH]; intros heap heap' Hheap Hord; cbn [make_tree_loop];
    destruct (decide (1 < length heap)%nat) as [Hlen|Hlen]; try discriminate;
    try (by intros [= <-]).
  intros Hrun. inv_bind Hrun as [l h1] Hpop1. inv_bind Hrun as [r h2] Hpop2.
  inv_bind Hrun as h3 Hpush.
  pose proof (heappop_perm _ _ _ Hpop1) as Hperm1.
  pose proof (heappop_perm _ _ _ Hpop2) as Hperm2.
  apply heappop_heap in Hpop1 as [Hh1 Hmin]; [|done].
  apply heappop_heap in Hpop2 as [Hh2 _]; [|done].
  pose proof (heappush_perm _ _ _ Hpush) as Hperm3.
  apply heappush_heap in Hpush; [|done].
  rewrite Hperm1, Hperm2 in Hord.
  apply Forall_cons in Hord as [Hl [Hr Hord]%Forall_cons].
  apply (IH h3); [done| |done]. rewrite Hperm3. apply Forall_cons. split; [|done].
  split_and!; [|done|done]. apply Hmin. rewrite Hperm1, Hperm2. by right; left.
Qed.

(** * Huffman's rule *)

Lemma huffman_perm (heap heap' : list Node) (t : Node) :
  heap ≡ₚ heap' → huffman heap t → huffman heap' t.
Proof.
  intros Hperm Hh. destruct Hh as [n | heap l r rest t Hheap Hl Hr Hh].
  - apply Permutation_singleton_l in Hperm. subst heap'. constructor.
  - apply (huffman_join heap' l r rest t); [by rewrite <- Hperm | done..].
Qed.

Lemma make_tree_loop_huffman (fuel : nat) :
  ∀ heap heap' t,
    heap_from 0 heap → make_tree_loop fuel heap = Ok heap' →
    huffman heap' t → huffman heap t.
Proof.
  induction fuel as [|fuel IH]; intros heap heap' t Hheap; cbn [make_tree_loop];
    destruct (decide (1 < length heap)%nat) as [Hlen|Hlen]; try discriminate;
    try (by intros [= <-]).
  intros Hrun Ht. inv_bind Hrun as [l h1] Hpop1. inv_bind Hrun as [r h2] Hpop2.
  inv_bind Hrun as h3 Hpush.
  pose proof (heappop_perm _ _ _ Hpop1) as Hperm1.
  pose proof (heappop_perm _ _ _ Hpop2) as Hperm2.
  apply heappop_heap in Hpop1 as [Hh1 Hmin1]; [|done].
  apply heappop_heap in Hpop2 as [Hh2 Hmin2]; [|done].
  pose proof (heappush_perm _ _ _ Hpush) as Hperm3.
  apply heappush_heap in Hpush; [|done].
  apply (huffman_join heap l r h2 t).
  - by rewrite Hperm1, Hperm2.
  - intros x Hx. apply Hmin1. rewrite Hperm1, Hperm2. by right.
  - intros x Hx. apply Hmin2. rewrite Hperm2. by right.
  - apply (huffman_perm h3); [done|]. by apply (IH h3 heap').
Qed.

Lemma make_tree_huffman (heap : list Node) (root : Node) :
  heap_from 0 heap → make_tree heap = Ok root → huffman heap root.
Proof.
  intros Hheap Hrun. unfold make_tree in Hrun. inv_bind Hrun as heap1 Hloop.
  inv_bind Hrun as [root' rest] Hpop. injection Hrun as ->.
  apply (make_tree_loop_huffman (length heap) heap heap1); [done..|].
  pose proof (make_tree_loop_spec _ _ _ Hloop) as [Hlen _].
  apply heappop_perm in Hpop. rewrite Hpop in Hlen.
  destruct rest; [|cbn in Hlen; lia].
  apply Permutation_singleton_r in Hpop. subst heap1. constructor.
Qed.

(** X11: the tree that [encode] returns is built from the leaves of the
    characters of the text by Huffman's rule: at each step a node of least
    count is joined, as left child, with a node of least count among the
    others, under a new node that carries the sum of their counts.  Hence
    the left child of a node never has a larger count than the right
    child. *)
Theorem encode_tree_ordered (text code : string) (tree : Node) :
  encode text = Ok (code, tree) →
  huffman (leaf_nodes (Counter text)) tree ∧ ordered tree.
Proof.
  intros (heap & codes & Hheap & Htree & _)%encode_inv.
  pose proof (heapify_perm _ _ Hheap) as Hperm. apply heapify_heap in Hheap.
  split.
  - apply (huffman_perm heap); [done|]. by apply make_tree_huffman.
  - unfold make_tree in Htree. inv_bind Htree as heap1 Hloop.
    inv_bind Htree as [root rest] Hpop. injection Htree as ->.
    apply make_tree_loop_ordered in Hloop; [|done|].
    + apply heappop_perm in Hpop. rewrite Hpop in Hloop.
      by apply Forall_cons in Hloop as [? _].
    + rewrite Hperm. apply leaf_nodes_all_internal.
Qed.

Lemma encode_tree_ordered_witness :
  huffman (leaf_nodes (Counter "abc")) tree_abc ∧ ordered tree_abc.
Proof. apply (encode_tree_ordered "abc" "10110"). vm_compute. reflexivity. Defined.

(** * What [make_tree] and [encode] return *)

(** X17: whatever the list given as heap, the tree that [make_tree] returns
    has the leaves of the nodes of the list, each as often as there, and
    the sum of their counts as count; with two nodes or more in the list,
    its root is a new node with letter ['\0'] and two children. *)
Theorem make_tree_result (heap : list Node) (root : Node) :
  make_tree heap = Ok root →
  leaves root ≡ₚ heap ≫= leaves ∧
  count root = total_count heap ∧
  ((2 ≤ length heap)%nat → ∃ c l r, root = mkNode c NUL (Some l) (Some r)).
Proof.
  intros Hrun. split_and!.
  - by apply make_tree_spec.
  - by apply make_tree_total_count.
  - intros Hlen. unfold make_tree in Hrun. inv_bind Hrun as heap1 Hloop.
    inv_bind Hrun as [root' rest] Hpop. injection Hrun as ->.
    apply make_tree_loop_spec in Hloop as (_ & _ & Hroot).
    destruct (Hroot Hlen) as (c & l & r & ->). exists c, l, r.
    apply heappop_perm, Permutation_singleton_l in Hpop. by simplify_eq.
Qed.

Lemma make_tree_result_witness :
  leaves tree_ab ≡ₚ [mkNode 1 "a" None None; mkNode 1 "b" None None] ≫= leaves ∧
  count tree_ab = total_count [mkNode 1 "a" None None; mkNode 1 "b" None None] ∧
  ((2 ≤ 2)%nat → ∃ c l r, tree_ab = mkNode c NUL (Some l) (Some r)).
Proof.
  apply (make_tree_result [mkNode 1 "a" None None; mkNode 1 "b" None None]).
  vm_compute. reflexivity.
Defined.

(** * The height of the trees *)

Lemma make_tree_loop_height (m fuel : nat) :
  ∀ heap heap',
    Forall (λ n, (height n + length heap ≤ m)%nat) heap →
    make_tree_loop fuel heap = Ok heap' →
    Forall (λ n, (height n + length heap' ≤ m)%nat) heap'.
Proof.
  induction fuel as [|fuel IH]; intros heap heap' Hall; cbn [make_tree_loop];
    destruct (decide (1 < length heap)%nat) as [Hlen|Hlen]; try discriminate;
    try (by intros [= <-]).
  intros Hrun. inv_bind Hrun as [l h1] Hpop1. inv_bind Hrun as [r h2] Hpop2.
  inv_bind Hrun as h3 Hpush.
  apply heappop_perm in Hpop1. apply heappop_perm in Hpop2.
  apply heappush_perm in Hpush.
  assert (Hlen0 : length heap = S (S (length h2))) by (by rewrite Hpop1, Hpop2).
  assert (Hlen3 : length h3 = S (length h2)) by (by rewrite Hpush).
  rewrite Hlen0 in Hall. rewrite Hpop1, Hpop2 in Hall.
  apply Forall_cons in Hall as [Hl [Hr Hall]%Forall_cons].
  apply (IH h3); [|done]. rewrite Hlen3, Hpush. apply Forall_cons. split.
  - cbn [height]. lia.
  - eapply Forall_impl; [exact Hall|]. cbv beta. intros n Hn. lia.
Qed.

Lemma make_tree_height (m : nat) (heap : list Node) (root : Node) :
  Forall (λ n, (height n + length heap ≤ S m)%nat) heap →
  make_tree heap = Ok root → (height root ≤ m)%nat.
Proof.
  intros Hall Hrun. unfold make_tree in Hrun. inv_bind Hrun as heap1 Hloop.
  inv_bind Hrun as [root' rest] Hpop. injection Hrun as ->.
  apply (make_tree_loop_height (S m)) in Hloop; [|done].
  apply heappop_perm in Hpop.
  assert (Hlen : length heap1 = S (length rest)) by (by rewrite Hpop).
  rewrite Hlen, Hpop in Hloop. apply Forall_cons in Hloop as [Hroot _]. lia.
Qed.

Lemma NoDup_ascii_length (l : list ascii) : NoDup l → (length l ≤ 256)%nat.
Proof.
  intros Hnd. assert (Hsub : nat_of_ascii <$> l ⊆+ seq 0 256).
  { apply NoDup_submseteq.
    - apply NoDup_fmap_2; [|done]. intros a b Hab.
      rewrite <- (ascii_nat_embedding a), <- (ascii_nat_embedding b). by f_equal.
    - intros n (a & -> & _)%list_elem_of_fmap. apply elem_of_seq.
      pose proof (nat_ascii_bounded a). lia. }
  apply submseteq_length in Hsub. by rewrite length_fmap, length_seq in Hsub.
Qed.

(** The trees of [encode] are no higher than [max_depth]. *)
Lemma encode_height (text code : string) (tree : Node) :
  encode text = Ok (code, tree) → (height tree ≤ max_depth)%nat.
Proof.
  intros (heap & codes & Hheap & Htree & _)%encode_inv.
  apply heapify_perm in Hheap. apply (make_tree_height _ heap); [|done].
  assert (Hlen' : length heap = length (Counter text))
    by (rewrite Hheap; unfold leaf_nodes; by rewrite length_fmap).
  pose proof (NoDup_ascii_length _ (Counter_NoDup text)) as Hlen.
  rewrite length_fmap in Hlen. rewrite Hlen', Hheap. unfold leaf_nodes.
  apply Forall_fmap, Forall_forall. intros [a n] _. cbn. unfold max_depth. lia.
Qed.

(** X18: [make_tree] on a list that is not empty, of nodes whose height
    leaves room for the joins ([height n + length heap <= max_depth + 1],
    as for the leaves [encode] passes).  It returns a tree, unless a
    comparison of two nodes raises [TypeError]; it does return when every
    node of the list is well formed (leaves with a letter other than
    ['\0'], other nodes with letter ['\0'] and two children), and the tree
    is then well formed too.  The tree returned is no higher than
    [max_depth]. *)
Theorem make_tree_outcome (heap : list Node) :
  heap ≠ [] →
  Forall (λ n, (height n + length heap ≤ S max_depth)%nat) heap →
  ((∃ root, make_tree heap = Ok root) ∨ make_tree heap = Raise TypeError) ∧
  (Forall well_formed heap →
   ∃ root, make_tree heap = Ok root ∧ well_formed root) ∧
  (∀ root, make_tree heap = Ok root → (height root ≤ max_depth)%nat).
Proof.
  intros Hne Hheight. split_and!.
  - pose proof (make_tree_completes false heap ltac:(by apply Forall_true) Hne) as Hc.
    destruct (make_tree heap) as [root|[]|]; cbn in Hc; try done; eauto.
  - intros Hwf.
    destruct (completes_true_Ok (make_tree heap)) as [root Hroot];
      [by apply make_tree_completes|].
    exists root. split; [done|].
    apply (make_tree_Forall well_formed) in Hroot; [done| |done].
    intros l r Hl Hr. by split_and!.
  - intros root. by apply make_tree_height.
Qed.

Lemma make_tree_outcome_witness :
  ∃ root, make_tree [mkNode 1 "a" None None; mkNode 1 "b" None None] = Ok root
          ∧ well_formed root.
Proof.
  apply (make_tree_outcome [mkNode 1 "a" None None; mkNode 1 "b" None None]);
    [discriminate | repeat constructor; vm_compute; lia |].
  repeat constructor; discriminate.
Defined.

Lemma lookup_all_length (root : Node) (text : string) :
  is_leaf root = false →
  ∀ codes, lookup_all (make_table root) text = Ok codes →
           (String.length text ≤ String.length (String.concat "" codes))%nat.
Proof.
  intros Hroot. induction text as [|c text IH]; intros codes Hcodes; [cbn; lia|].
  apply lookup_all_cons in Hcodes as (code & codes' & Hcode & Hcodes & ->).
  apply make_table_sound in Hcode as (n & Hwalk & Hleaf & _).
  rewrite concat_cons, app_length. specialize (IH _ Hcodes).
  destruct code as [|b code]; [|cbn [String.length]; lia].
  cbn in Hwalk. congruence.
Qed.

(** X12: the code that [encode] returns consists of the characters ['0'] and
    ['1'] only; when the text has two distinct characters, it has at least
    one bit for each character of the text. *)
Theorem encode_code (text code : string) (tree : Node) :
  encode text = Ok (code, tree) →
  all_bits code = true ∧
  (∀ a b, a ≠ b → a ∈ chars text → b ∈ chars text →
          (String.length text ≤ String.length code)%nat).
Proof.
  intros Henc. split; [by eapply encode_bits|].
  intros a b Hne Ha Hb. pose proof (encode_not_leaf _ _ _ a b Henc Hne Ha Hb) as Hroot.
  apply encode_inv in Henc as (heap & codes & _ & _ & Hcodes & ->).
  by eapply lookup_all_length.
Qed.

Lemma encode_code_witness :
  all_bits "10110" = true ∧
  (∀ a b, a ≠ b → a ∈ chars "abc" → b ∈ chars "abc" →
          (String.length "abc" ≤ String.length "10110")%nat).
Proof. apply (encode_code "abc" "10110" tree_abc). vm_compute. reflexivity. Defined.

(** * [list_to_tree] on a stack with a limit *)

Lemma bind_ext {A B} (r : result A) (k1 k2 : A → result B) :
  (∀ a, k1 a = k2 a) → r ≫= k1 = r ≫= k2.
Proof. intros Hk. destruct r; [apply Hk | done..]. Qed.

Lemma nesting_PList (l : list pyvalue) (f : nat) :
  (nesting (PList l) ≤ S f)%nat ↔ Forall (λ y, (nesting y ≤ f)%nat) l.
Proof.
  cbn [nesting]. induction l as [|y l IH]; cbn [foldr].
  - split; [constructor | lia].
  - rewrite Forall_cons. split.
    + intros Hle. split; [lia|]. apply IH. lia.
    + intros [Hy Hl]. apply IH in Hl. lia.
Qed.

Lemma nesting_PList_pos (l : list pyvalue) : (0 < nesting (PList l))%nat.
Proof. cbn [nesting]. lia. Qed.

Lemma list_to_tree_in_unfold (frames : nat) (letter l1 : pyvalue) (rest : list pyvalue) :
  list_to_tree_in (S frames) (PList (letter :: l1 :: rest))
  = left ← (if truthy l1 then t ← list_to_tree_in frames l1; Ok (Some t) else Ok None);
    l2 ← getitem (letter :: l1 :: rest) 2;
    right ← (if truthy l2 then t ← list_to_tree_in frames l2; Ok (Some t) else Ok None);
    Ok (mkCompressNode letter left right).
Proof. reflexivity. Qed.

Lemma list_to_tree_unfold (letter l1 : pyvalue) (rest : list pyvalue) :
  list_to_tree (PList (letter :: l1 :: rest))
  = left ← (if truthy l1 then t ← list_to_tree l1; Ok (Some t) else Ok None);
    l2 ← getitem (letter :: l1 :: rest) 2;
    right ← (if truthy l2 then t ← list_to_tree l2; Ok (Some t) else Ok None);
    Ok (mkCompressNode letter left right).
Proof.
  cbn [list_to_tree]. destruct (if truthy l1 then _ else _); [|done..].
  cbn [mbind result_bind]. by destruct rest.
Qed.

(** With frames left for every level of nesting, the limit is not met. *)
Lemma list_to_tree_in_enough (x : pyvalue) :
  ∀ frames, accepts x = true → (nesting x ≤ frames)%nat →
            list_to_tree_in frames x = list_to_tree x.
Proof.
  induction x as [| | | |l IH] using pyvalue_ind'; try discriminate.
  intros frames Hacc Hnest.
  destruct l as [|letter [|l1 [|l2 rest]]]; try discriminate.
  destruct frames as [|frames]; [pose proof (nesting_PList_pos (letter :: l1 :: l2 :: rest)); lia|].
  apply nesting_PList in Hnest.
  apply Forall_cons in Hnest as [_ [Hn1 [Hn2 _]%Forall_cons]%Forall_cons].
  inversion IH as [|? ? _ IH1]; subst. inversion IH1 as [|? ? IHl IH2]; subst.
  inversion IH2 as [|? ? IHr _]; subst.
  rewrite accepts_unfold in Hacc. apply andb_prop in Hacc as [Hacc1 Hacc2].
  rewrite list_to_tree_in_unfold, list_to_tree_unfold.
  assert (H1 : (if truthy l1 then t ← list_to_tree_in frames l1; Ok (Some t) else Ok None)
               = (if truthy l1 then t ← list_to_tree l1; Ok (Some t) else Ok None)).
  { destruct (truthy l1); [|done]. by rewrite IHl. }
  assert (H2 : (if truthy l2 then t ← list_to_tree_in frames l2; Ok (Some t) else Ok None)
               = (if truthy l2 then t ← list_to_tree l2; Ok (Some t) else Ok None)).
  { destruct (truthy l2); [|done]. by rewrite IHr. }
  rewrite H1. apply bind_ext. intros ol.
  change (getitem (letter :: l1 :: l2 :: rest) 2) with (Ok l2).
  cbn [mbind result_bind]. by rewrite H2.
Qed.

(** The limit changes nothing but to raise [RecursionError]. *)
Lemma list_to_tree_in_cases (frames : nat) :
  ∀ x, list_to_tree_in frames x = list_to_tree x
       ∨ list_to_tree_in frames x = Raise RecursionError.
Proof.
  induction frames as [|frames IH]; intros x; [by right|].
  assert (Hchild : ∀ y,
            (if truthy y then t ← list_to_tree_in frames y; Ok (Some t) else Ok None)
            = (if truthy y then t ← list_to_tree y; Ok (Some t) else Ok None)
            ∨ (if truthy y then t ← list_to_tree_in frames y; Ok (Some t) else Ok None)
              = Raise RecursionError).
  { intros y. destruct (truthy y); [|by left].
    destruct (IH y) as [-> | ->]; [by left | by right]. }
  destruct x as [| | |s|l]; try by left.
  - destruct s as [|a [|b s]]; [by left..|].
    cbn [list_to_tree_in items mbind result_bind fmap list_fmap list_ascii_of_string
         getitem lookup list_lookup truthy String.eqb negb].
    destruct frames as [|frames']; [by right | by left].
  - destruct l as [|letter [|l1 rest]]; [by left..|].
    rewrite list_to_tree_in_unfold, list_to_tree_unfold.
    destruct (Hchild l1) as [-> | ->]; [|by right].
    destruct (if truthy l1 then _ else _) as [ol|e|]; [|by left..].
    cbn [mbind result_bind]. destruct (getitem _ 2) as [l2|e|]; [|by left..].
    cbn [mbind result_bind]. destruct (Hchild l2) as [-> | ->]; [by left | by right].
Qed.

Lemma tree_form_accepts (x : pyvalue) : tree_form x = true → accepts x = true.
Proof.
  induction x as [| | | |l IH] using pyvalue_ind'; try discriminate.
  destruct l as [|sym [|lc [|rc [|? ?]]]]; try discriminate.
  rewrite tree_form_unfold, accepts_unfold. intros Hform.
  apply andb_prop in Hform as [Hform Hr]. apply andb_prop in Hform as [_ Hl].
  inversion IH as [|? ? _ IH1]; subst. inversion IH1 as [|? ? IHl IH2]; subst.
  inversion IH2 as [|? ? IHr _]; subst.
  assert (Hchild : ∀ y, (tree_form y = true → accepts y = true) →
                        child_form y = true → negb (truthy y) || accepts y = true).
  { intros y Hy Hc. destruct y; try done; rewrite (Hy Hc); apply orb_true_r. }
  by rewrite (Hchild lc), (Hchild rc).
Qed.

Lemma nesting_deep_list (d : nat) : nesting (deep_list d) = S d.
Proof.
  induction d as [|d IH]; [done|].
  change (deep_list (S d)) with (PList [PNone; deep_list d; PNone]).
  cbn [nesting foldr]. cbn [nesting] in IH. rewrite IH. lia.
Qed.

Lemma accepts_json_dump (t : CompressNode) : accepts (json_dump t) = true.
Proof.
  induction t as [a l r IHl IHr] using CompressNode_ind'.
  cbn [json_dump]. rewrite accepts_unfold.
  destruct l as [l|], r as [r|]; simpl in IHl, IHr; rewrite ?IHl, ?IHr;
    rewrite ?orb_true_r; reflexivity.
Qed.

Lemma nesting_json_dump (n : Node) :
  nesting (json_dump (tree_for_compression n)) = S (height n).
Proof.
  induction n as [c a l r IHl IHr] using Node_ind'.
  cbn [tree_for_compression json_dump nesting foldr height].
  change (nesting (letter (mkNode c a l r))) with 0%nat.
  destruct l as [l|], r as [r|]; simpl in IHl, IHr; rewrite ?IHl, ?IHr; cbn [nesting]; lia.
Qed.

(** On the tree file of a tree that [encode] returned, the stack limit is
    not met as long as [max_depth + 1] frames are left. *)
Lemma list_to_tree_in_encode (text code : string) (tree : Node) (frames : nat) :
  encode text = Ok (code, tree) → (S max_depth ≤ frames)%nat →
  list_to_tree_in frames (json_dump (tree_for_compression tree))
  = list_to_tree (json_dump (tree_for_compression tree)).
Proof.
  intros Henc Hframes. apply list_to_tree_in_enough; [apply accepts_json_dump|].
  rewrite nesting_json_dump. apply encode_height in Henc. lia.
Qed.

Lemma list_to_tree_in_deep_list (d : nat) :
  list_to_tree_in d (deep_list d) = Raise RecursionError.
Proof.
  induction d as [|d IH]; [done|].
  change (deep_list (S d)) with (PList [PNone; deep_list d; PNone]).
  rewrite list_to_tree_in_unfold.
  assert (Htruthy : truthy (deep_list d) = true) by (by destruct d).
  by rewrite Htruthy, IH.
Qed.

Lemma tree_form_deep_list (d : nat) : tree_form (deep_list d) = true.
Proof.
  induction d as [|d IH]; [done|].
  change (deep_list (S d)) with (PList [PNone; deep_list d; PNone]).
  rewrite tree_form_unfold.
  assert (Hchild : child_form (deep_list d) = true) by (by destruct d).
  by rewrite Hchild.
Qed.






(** * Concrete runs *)

(** C1: the round trip is lost on a text with a single symbol.  [encode]
    gives ["aaaa"] the empty code and a tree that is one leaf, and [decode]
    turns the empty code into the empty text, not into ["aaaa"]. *)
Theorem roundtrip_single_symbol :
  encode "aaaa" = Ok ("", mkNode 4 "a" None None) ∧
  decode "" (mkNode 4 "a" None None) = Ok "" ∧
  (encode "aaaa" ≫= λ r, decode r.1 r.2) ≠ Ok "aaaa".
Proof. vm_compute. split_and!; [reflexivity | reflexivity | discriminate]. Qed.

(** C5: for a text with a single symbol the tree is one leaf, and the code
    table gives the symbol the empty code, of length 0. *)
Theorem single_symbol_code_empty :
  ∃ tree, encode "aaaa" = Ok ("", tree) ∧ is_leaf tree = true ∧
          make_table tree !! "a"%char = Some "" ∧ String.length "" = 0%nat.
Proof. exists (mkNode 4 "a" None None). vm_compute. done. Qed.

(** C2: [encode_to_files] fails when the length of the code is a multiple
    of 8.  The code of ["aaaabbbb"] has 8 bits, [prefix_len] is 0, and
    [int(code[:0], 2)] raises [ValueError] before any byte is written. *)
Theorem encode_to_files_multiple_of_8 :
  (∃ tree, encode "aaaabbbb" = Ok ("00001111", tree)) ∧
  (String.length "00001111" mod 8 = 0)%nat ∧
  int2 (slice "00001111" 0 0) = Raise ValueError ∧
  encode_to_files "aaaabbbb" = Raise ValueError.
Proof. split; [eexists|]; vm_compute; done. Qed.

(** C3: with [prefix_len] 0 the first data byte is kept whole.  The slice
    [codes[0][-0:]] is [codes[0][0:]], so the byte contributes its 8 bits
    to the code string instead of none. *)
Theorem unpack_prefix_len_0 :
  slice_from (byte_to_bits 0) (- 0) = "00000000" ∧
  unpack ["000"; "000"; "015"]%byte = Ok "0000000000001111" ∧
  decode_from_files ["000"; "000"; "015"]%byte
    (json_dump (tree_for_compression
       (mkNode 8 NUL (Some (mkNode 4 "a" None None)) (Some (mkNode 4 "b" None None)))))
  = Ok "aaaaaaaaaaaabbbb".
Proof. vm_compute. done. Qed.

(** C4 as stated fails: on the empty text [encode] does not raise an error
    of its own, it raises the [IndexError] of the empty list. *)
Lemma encode_empty_not_EmptyInput :
  ¬ ∃ e, encode "" = Raise e ∧ container_error e = false.
Proof. intros (e & He & Hcont). vm_compute in He. injection He as <-. discriminate. Qed.

(** C4, amended: on the empty text [encode] fails.  [Counter] and [heapify]
    give the empty heap, on which the [heappop] that ends [make_tree] raises
    [IndexError]; nothing is returned. *)
Theorem encode_empty_IndexError :
  heapify ((λ '(letter, count), mkNode count letter None None) <$> Counter "") = Ok [] ∧
  make_tree [] = Raise IndexError ∧
  encode "" = Raise IndexError.
Proof. vm_compute. done. Qed.
